(** * game-of-life-img: the grid transform, the broadcast hubs and the
      stream session of [main.go], embedded in Rocq.

    Go values are modelled as follows.
    - [int] is a 64-bit two's complement integer: a [Z] with the
      wrap-around [wrap] applied after every addition and multiplication.
    - [Board] ([[][]bool]) is a list of rows; reading outside a slice
      panics in Go, so every indexed read or write returns an [option]
      ([None] is the run-time panic).
    - [[]byte] and [string] are Rocq strings (sequences of 8-bit
      characters).
    - a [map[chan<- ImageBundle]struct{}] is a finite set of channel
      identities ([gset chan_id]); the channels themselves live in a store
      ([gmap chan_id Chan]).
    - goroutine bodies are step functions over explicit state. *)

From Stdlib Require Import ZArith Lia Ascii String.
From stdpp Require Import gmap strings list fin_maps.

Local Open Scope Z_scope.

#[local] Set Warnings "-clear-no-such-hyp".

(** ** Go's [int] *)

Module GoInt.

Definition min_int : Z := - 2 ^ 63.
Definition max_int : Z := 2 ^ 63 - 1.

(** Wrap-around of a mathematical integer into the 64-bit signed range. *)
Definition wrap (x : Z) : Z := (x + 2 ^ 63) mod 2 ^ 64 - 2 ^ 63.

Definition add (x y : Z) : Z := wrap (x + y).
Definition mul (x y : Z) : Z := wrap (x * y).

Definition in_range (x : Z) : Prop := min_int <= x <= max_int.

End GoInt.

(** ** Bounded [for] loops over a state that may panic *)

(** [for i := lo; i < lo + n; i++ { body }], threading the state and
    stopping at the first panic. *)
Fixpoint for_range {St : Type} (lo n : nat) (body : nat → St → option St)
    (s : St) : option St :=
  match n with
  | O => Some s
  | S n' =>
      match body lo s with
      | Some s' => for_range (S lo) n' body s'
      | None => None
      end
  end.

(** ** The board *)

(** [type Board [][]bool] *)
Abbreviation Board := (list (list bool)).

(** [len] of a slice, as a Go [int]. *)
Definition len {A : Type} (l : list A) : Z := Z.of_nat (length l).

(** [func (b Board) Get(i, j int) bool] *)
Definition Get (b : Board) (i j : Z) : bool :=
  if (i <? 0) || (i >=? len b) then false
  else
    match b !! Z.to_nat i with
    | None => false
    | Some row =>
        if (j <? 0) || (j >=? len row) then false
        else
          match row !! Z.to_nat j with
          | None => false
          | Some v => v
          end
    end.

(** [newBoard[i] = row]: panics when [i] is out of range. *)
Definition set_row (nb : Board) (i : nat) (row : list bool) : option Board :=
  if decide (i < length nb)%nat then Some (<[i := row]> nb) else None.

(** [newBoard[i][j] = v]: panics when [i] or [j] is out of range. *)
Definition set_cell (nb : Board) (i j : nat) (v : bool) : option Board :=
  match nb !! i with
  | None => None
  | Some row =>
      if decide (j < length row)%nat then Some (<[i := <[j := v]> row]> nb)
      else None
  end.

(** The array literal of [Evolute]. *)
Definition directions : list (Z * Z) :=
  [ (1, 1); (1, 0); (1, -1); (0, 1); (0, -1); (-1, 1); (-1, 0); (-1, -1) ].

(** The [for _, dir := range directions] loop: [cnt] after the loop. *)
Definition count_neighbours (board : Board) (i j : Z) : Z :=
  fold_left
    (fun cnt dir =>
       if Get board (GoInt.add i (fst dir)) (GoInt.add j (snd dir))
       then GoInt.add cnt 1 else cnt)
    directions 0.

(** The [if cnt == 2 ... else if cnt == 3 ... else ...] chain. *)
Definition next_cell (board : Board) (i j : Z) (cnt : Z) : bool :=
  if cnt =? 2 then Get board i j
  else if cnt =? 3 then true
  else false.

(** The two boards [Evolute] works on: its argument and the board it
    allocates. *)
Record EvState : Type := mkEvState { board : Board; newBoard : Board }.

(** Body of the inner loop, at row [i] and column [j]. *)
Definition evolute_cell (i j : nat) (s : EvState) : option EvState :=
  let cnt := count_neighbours (board s) (Z.of_nat i) (Z.of_nat j) in
  let v := next_cell (board s) (Z.of_nat i) (Z.of_nat j) cnt in
  match set_cell (newBoard s) i j v with
  | Some nb => Some (mkEvState (board s) nb)
  | None => None
  end.

(** Body of the outer loop, at row [i]. *)
Definition evolute_row (i : nat) (s : EvState) : option EvState :=
  match board s !! i with
  | None => None
  | Some row =>
      match set_row (newBoard s) i (replicate (length row) false) with
      | None => None
      | Some nb =>
          for_range 0 (length row) (evolute_cell i) (mkEvState (board s) nb)
      end
  end.

(** [Evolute] as a state transformer: the final pair of boards. *)
Definition evolute_run (b : Board) : option EvState :=
  for_range 0 (length b) evolute_row
    (mkEvState b (replicate (length b) [])).

(** [func Evolute(board Board) Board] *)
Definition Evolute (b : Board) : option Board :=
  match evolute_run b with
  | Some s => Some (newBoard s)
  | None => None
  end.

(** The value [Evolute] stores at row [i], column [j]. *)
Definition cell_value (b : Board) (i j : nat) : bool :=
  next_cell b (Z.of_nat i) (Z.of_nat j)
    (count_neighbours b (Z.of_nat i) (Z.of_nat j)).

(** Row [i] of [nb] has the length of row [i] of [b] and holds the values
    [Evolute] computes from [b]. *)
Definition row_done (b nb : Board) (i : nat) : Prop :=
  ∀ row, b !! i = Some row →
    ∃ row', nb !! i = Some row' ∧ length row' = length row ∧
      ∀ j, (j < length row)%nat → row' !! j = Some (cell_value b i j).

(** Invariant of the inner loop of [Evolute b] at row [i], started on the board [nb0]:
    only row [i] of the new board differs from [nb0], and its columns
    below [j] are final. *)
Definition inner_inv (b nb0 : Board) (i m j : nat) (s : EvState) : Prop :=
  board s = b ∧
  ∃ r, newBoard s = <[i := r]> nb0 ∧ length r = m ∧
    ∀ j', (j' < j)%nat → r !! j' = Some (cell_value b i j').

(** Invariant of the outer loop of [Evolute b]: rows below [k] are final. *)
Definition outer_inv (b : Board) (k : nat) (s : EvState) : Prop :=
  board s = b ∧ length (newBoard s) = length b ∧
  ∀ i, (i < k)%nat → row_done b (newBoard s) i.

(** Every slice length is a Go [int]. *)
Definition well_sized (b : Board) : bool :=
  (len b <=? GoInt.max_int) && forallb (fun row => len row <=? GoInt.max_int) b.

(** The rule of the game in the words of its description. A position is
    alive when it lies on the board and holds [true]; any position off the
    board is dead. *)
Definition alive (b : Board) (i j : Z) : bool :=
  if (0 <=? i) && (0 <=? j) then
    match b !! Z.to_nat i with
    | Some row => default false (row !! Z.to_nat j)
    | None => false
    end
  else false.

(** The eight positions around a cell: all offsets in [-1, 1] x [-1, 1]
    but [(0, 0)]. *)
Definition neighbour_offsets : list (Z * Z) :=
  List.filter (fun d => negb ((fst d =? 0) && (snd d =? 0)))
    (list_prod [-1; 0; 1] [-1; 0; 1]).

Definition live_neighbours (b : Board) (i j : Z) : nat :=
  length (List.filter (fun d => alive b (i + fst d) (j + snd d))
            neighbour_offsets).

(** A glider on a 4x4 board. *)
Definition glider : Board :=
  [ [false; true;  false; false];
    [false; false; true;  false];
    [true;  true;  true;  false];
    [false; false; false; false] ].

(** ** Text and decimal numbers *)

(** Carriage return, line feed and the double quote, by character code. *)
Definition cr : ascii := ascii_of_nat 13.
Definition lf : ascii := ascii_of_nat 10.
Definition crlf : string := String cr (String lf EmptyString).
Definition dquote : string := String (ascii_of_nat 34) EmptyString.

Definition digit_char (d : Z) : ascii := ascii_of_nat (48 + Z.to_nat d).

(** The digit loop of [strconv.Itoa]: least significant digit first,
    prepended to [acc]. [fuel] bounds the number of digits. *)
Fixpoint format_digits (fuel : nat) (n : Z) (acc : string) : string :=
  match fuel with
  | O => acc
  | S fuel' =>
      let acc' := String (digit_char (n mod 10)) acc in
      if n / 10 =? 0 then acc' else format_digits fuel' (n / 10) acc'
  end.

Definition format_uint (n : Z) : string :=
  format_digits (S (Z.to_nat (Z.log2 n))) n EmptyString.

(** [strconv.Itoa] *)
Definition Itoa (v : Z) : string :=
  if v <? 0 then String "-" (format_uint (- v)) else format_uint v.




(** [len] of a byte slice or string. *)
Definition blen (s : string) : Z := Z.of_nat (String.length s).

(** ** Frames and their encoders *)

Record ImageBundle : Type := mkImageBundle { Data : string; ContentType : string }.

(** Go's [error] interface value: [None] is [nil]. *)
Definition error : Type := option string.

(** The SVG writer of the [svgo] package is not part of this repository:
    the text each of its calls appends to the buffer is a parameter. *)
Record Svgo : Type := mkSvgo {
  svg_Start : Z → Z → string;
  svg_Rect : Z → Z → Z → Z → list string → string;
  svg_Text : Z → Z → string → list string → string;
  svg_End : string
}.

Definition attr (name value : string) : string :=
  name +:+ "=" +:+ dquote +:+ value +:+ dquote.

(** Inner loop body of [Board.Svg]: reads [b[i][j]] and draws live cells. *)
Definition svg_cell (cv : Svgo) (b : Board) (k : Z) (i j : nat) (buf : string)
  : option string :=
  match b !! i with
  | None => None
  | Some row =>
      match row !! j with
      | None => None
      | Some v =>
          if negb v then Some buf
          else Some (buf +:+ svg_Rect cv (GoInt.mul (Z.of_nat i) k)
                               (GoInt.mul (Z.of_nat j) k) k k
                               [attr "fill" "black"])
      end
  end.

Definition svg_row (cv : Svgo) (b : Board) (k : Z) (i : nat) (buf : string)
  : option string :=
  match b !! i with
  | None => None
  | Some row => for_range 0 (length row) (svg_cell cv b k i) buf
  end.

(** [func (b Board) Svg(scale int) ([]byte, error)]. [None] is a panic;
    [b[0]] is read before anything is drawn. *)
Definition Svg (cv : Svgo) (b : Board) (scale : Z) : option (string * error) :=
  let k := scale in
  match b !! 0%nat with
  | None => None
  | Some row0 =>
      let buf := svg_Start cv (GoInt.mul k (len b)) (GoInt.mul k (len row0)) in
      match for_range 0 (length b) (svg_row cv b k) buf with
      | None => None
      | Some buf' => Some (buf' +:+ svg_End cv, None)
      end
  end.

(** [func numberSvg(v int) []byte] *)
Definition numberSvg (cv : Svgo) (v : Z) : string :=
  let s := Itoa v in
  svg_Start cv (GoInt.mul (blen s) 14) 14
  +:+ svg_Text cv 7 7 (Itoa v)
        [ attr "font-size" "14"; attr "fill" "red";
          attr "dominant-baseline" "middle"; attr "text-anchor" "middle" ]
  +:+ svg_End cv.

(** ** The initial board *)

(** [make([]T, n)] panics ("len out of range") when [n] is negative, and
    when [n] elements of [size] bytes are more than the run-time can
    address: [2^48] bytes on the 64-bit platforms with 48-bit heap
    addresses. A slice header takes 24 bytes, a [bool] one byte. Running
    out of memory below that limit is not modelled. *)
Definition max_alloc : Z := 2 ^ 48.

Definition make_ok (size n : Z) : bool :=
  (0 <=? n) && (size * n <=? max_alloc).

(** The global random source: [rnd n] is the value of the [n]-th call of
    [rand.Int()]. The state threaded through [NewBoard] is the board under
    construction and the number of draws made so far. *)
Definition newboard_cell (rnd : nat → Z) (i j : nat) (s : Board * nat)
  : option (Board * nat) :=
  let '(b, n) := s in
  if Z.rem (rnd n) 5 =? 0 then
    match set_cell b i j true with
    | Some b' => Some (b', S n)
    | None => None
    end
  else Some (b, S n).

Definition newboard_row (rnd : nat → Z) (h : Z) (i : nat) (s : Board * nat)
  : option (Board * nat) :=
  let '(b, n) := s in
  if negb (make_ok 1 h) then None
  else
    match set_row b i (replicate (Z.to_nat h) false) with
    | None => None
    | Some b' => for_range 0 (Z.to_nat h) (newboard_cell rnd i) (b', n)
    end.

(** [func NewBoard(w, h int) Board]; [make] panics on a length out of
    range. *)
Definition NewBoard (rnd : nat → Z) (w h : Z) (n : nat) : option (Board * nat) :=
  if negb (make_ok 24 w) then None
  else for_range 0 (Z.to_nat w) (newboard_row rnd h)
         (replicate (Z.to_nat w) [], n).

(** Rows below [k] of the board under construction have [h] cells. *)
Definition newboard_inv (w h k : nat) (s : Board * nat) : Prop :=
  length (fst s) = w ∧
  ∀ i, (i < k)%nat → ∃ row, fst s !! i = Some row ∧ length row = h.

(** ** Channels and the non-blocking send *)

Definition chan_id : Type := nat.

(** An unbuffered [chan ImageBundle] seen from its sender: whether the
    receiving session is parked in [case data := <-ch], and the frames
    handed to that session which it has not finished writing out. *)
Record Chan : Type := mkChan { parked : bool; held : list ImageBundle }.

(** The communication [ch <- bundle] can proceed exactly when a receiver
    is parked on the channel; the frame is then handed over. *)
Definition try_send (bundle : ImageBundle) (c : Chan) : option Chan :=
  if parked c then Some (mkChan false (held c ++ [bundle])) else None.

(** [select { case ch <- bundle: default: }]: the new store and whether
    the send case was taken. A channel nobody receives from is never
    ready. *)
Definition select_send (ch : chan_id) (bundle : ImageBundle)
    (σ : gmap chan_id Chan) : gmap chan_id Chan * bool :=
  match σ !! ch with
  | Some c =>
      match try_send bundle c with
      | Some c' => (<[ch := c']> σ, true)
      | None => (σ, false)
      end
  | None => (σ, false)
  end.

(** [for ch := range chs { select { ... } }] in the iteration order
    [order]; the second component records, per visited channel, which case
    of the [select] ran. *)
Fixpoint publish_in (order : list chan_id) (bundle : ImageBundle)
    (σ : gmap chan_id Chan) : gmap chan_id Chan * list (chan_id * bool) :=
  match order with
  | [] => (σ, [])
  | ch :: rest =>
      let '(σ1, sent) := select_send ch bundle σ in
      let '(σ2, outs) := publish_in rest bundle σ1 in
      (σ2, (ch, sent) :: outs)
  end.

Definition publish (chs : gset chan_id) (bundle : ImageBundle)
    (σ : gmap chan_id Chan) : gmap chan_id Chan * list (chan_id * bool) :=
  publish_in (elements chs) bundle σ.

(** [n] publishes in a row, with no step of any session in between. *)
Fixpoint publish_many (chs : gset chan_id) (bundles : list ImageBundle)
    (σ : gmap chan_id Chan) : gmap chan_id Chan :=
  match bundles with
  | [] => σ
  | f :: rest => publish_many chs rest (fst (publish chs f σ))
  end.

(** The session side of the channel: the receiver parks in the [select],
    and finishes the frame it holds. *)
Definition park (c : Chan) : Chan := mkChan true (held c).
Definition consume (c : Chan) : Chan := mkChan (parked c) (tail (held c)).

Definition frames_held (σ : gmap chan_id Chan) (ch : chan_id) : nat :=
  match σ !! ch with
  | Some c => length (held c)
  | None => 0%nat
  end.

(** What a publish of [bundle] is to do to one sink: hand the frame over
    if the receiver is parked, and leave the sink alone otherwise. *)
Definition deliver (bundle : ImageBundle) (c : Chan) : Chan :=
  if parked c then mkChan false (held c ++ [bundle]) else c.

(** Whether a send on [ch] can proceed at once. *)
Definition ready (σ : gmap chan_id Chan) (ch : chan_id) : bool :=
  match σ !! ch with
  | Some c => parked c
  | None => false
  end.

(** ** The hub interface *)

(** [type Render interface { Register(c chan<- ImageBundle) func() }] over
    a hub state [H]: the state after the call and the returned closure,
    which acts on the hub state current when it is invoked. [members]
    reads the membership map. *)
Record Render (H : Type) : Type := mkRender {
  Register : chan_id → H → H * (H → H);
  members : H → gset chan_id
}.
Arguments Register {H} _ _ _.
Arguments members {H} _ _.

(** ** GameRender *)

Record GameRender : Type := mkGameRender { gameChs : gset chan_id }.

(** [func (r *GameRender) Register(c chan<- ImageBundle) func()] *)
Definition GameRender_Register (c : chan_id) (r : GameRender)
  : GameRender * (GameRender → GameRender) :=
  (mkGameRender ({[c]} ∪ gameChs r),
   fun r' => mkGameRender (gameChs r' ∖ {[c]})).

Definition GameRender_Render : Render GameRender :=
  mkRender GameRender GameRender_Register gameChs.

(** What one turn of the engine loop does, in order. *)
Inductive Effect : Type :=
  | EffSleep (ms : Z)
  | EffEvolute
  | EffPrintln (e : string)
  | EffSelect (ch : chan_id) (sent : bool).

(** The goroutine of [GameRender.Start]: its local board [b], the sinks
    it can reach and what it has done so far. *)
Record Engine : Type := mkEngine {
  e_board : Board;
  e_sinks : gmap chan_id Chan;
  e_trace : list Effect
}.

Definition svg_content_type : string := "image/svg+xml".

(** One turn of the [for] loop of [GameRender.Start], reading the shared
    hub [r]. [None] is a panic. *)
Definition engine_iter (cv : Svgo) (r : GameRender) (e : Engine) : option Engine :=
  if decide (size (gameChs r) = 0%nat) then
    Some (mkEngine (e_board e) (e_sinks e) (e_trace e ++ [EffSleep 100]))
  else
    match Evolute (e_board e) with
    | None => None
    | Some b =>
        match Svg cv b 10 with
        | None => None
        | Some (img, Some err) =>
            Some (mkEngine b (e_sinks e)
                    (e_trace e ++ [EffEvolute; EffPrintln err]))
        | Some (img, None) =>
            let bundle := mkImageBundle img svg_content_type in
            let '(σ, outs) := publish (gameChs r) bundle (e_sinks e) in
            Some (mkEngine b σ
                    (e_trace e ++ [EffEvolute]
                       ++ map (fun o => EffSelect (fst o) (snd o)) outs
                       ++ [EffSleep 1000]))
        end
    end.

(** [n] turns of the loop while the hub stays [r]. *)
Fixpoint engine_loop (cv : Svgo) (n : nat) (r : GameRender) (e : Engine)
  : option Engine :=
  match n with
  | O => Some e
  | S n' =>
      match engine_iter cv r e with
      | Some e' => engine_loop cv n' r e'
      | None => None
      end
  end.

(** The engine as [Start] creates it: [b := NewBoard(80, 60)]. *)
Definition engine_start (rnd : nat → Z) (σ : gmap chan_id Chan) : option Engine :=
  match NewBoard rnd 80 60 0 with
  | Some (b, _) => Some (mkEngine b σ [])
  | None => None
  end.

(** How many times the loop has called [Evolute]. *)
Fixpoint evolutions (t : list Effect) : nat :=
  match t with
  | [] => 0%nat
  | EffEvolute :: t' => S (evolutions t')
  | _ :: t' => evolutions t'
  end.

(** How many [select] statements of a publish the loop has run. *)
Fixpoint selects (t : list Effect) : nat :=
  match t with
  | [] => 0%nat
  | EffSelect _ _ :: t' => S (selects t')
  | _ :: t' => selects t'
  end.

(** How many errors the loop has printed. *)
Fixpoint printlns (t : list Effect) : nat :=
  match t with
  | [] => 0%nat
  | EffPrintln _ :: t' => S (printlns t')
  | _ :: t' => printlns t'
  end.

(** A writer with a simplified output format, for the examples. *)
Definition sample_svgo : Svgo :=
  mkSvgo
    (fun w h => "<svg " +:+ Itoa w +:+ " " +:+ Itoa h +:+ ">")
    (fun x y w h _ => "<rect " +:+ Itoa x +:+ " " +:+ Itoa y +:+ "/>")
    (fun x y t _ => "<text>" +:+ t +:+ "</text>")
    "</svg>".

(** ** ViewersRender *)

(** What the owner goroutine's [select] received. *)
Inductive ViewerEvent : Type :=
  | VJoin (c : chan_id)
  | VLeave (c : chan_id)
  | VTick.

(** The goroutine of [ViewersRender.Start]: its local map [viewers] and
    the sinks it can reach. *)
Record ViewersWorld : Type := mkViewersWorld {
  viewers : gset chan_id;
  v_sinks : gmap chan_id Chan
}.

(** One turn of the [for] loop of [ViewersRender.Start]. *)
Definition viewers_iter (cv : Svgo) (ev : ViewerEvent) (vw : ViewersWorld)
  : ViewersWorld :=
  let vs :=
    match ev with
    | VJoin c => {[c]} ∪ viewers vw
    | VLeave c => viewers vw ∖ {[c]}
    | VTick => viewers vw
    end in
  let bundle :=
    mkImageBundle (numberSvg cv (Z.of_nat (size vs))) svg_content_type in
  mkViewersWorld vs (fst (publish vs bundle (v_sinks vw))).

(** [func (r *ViewersRender) Register(c chan<- ImageBundle) func()]: the
    send on the unbuffered [viewerJoin] ([viewerLeave]) completes when the
    owner goroutine receives it, which then runs one turn of its loop. *)
Definition ViewersRender_Register (cv : Svgo) (c : chan_id) (vw : ViewersWorld)
  : ViewersWorld * (ViewersWorld → ViewersWorld) :=
  (viewers_iter cv (VJoin c) vw, fun vw' => viewers_iter cv (VLeave c) vw').

Definition ViewersRender_Render (cv : Svgo) : Render ViewersWorld :=
  mkRender ViewersWorld (ViewersRender_Register cv) viewers.

(** ** The stream session *)

Inductive SessionState : Type := Connecting | Streaming | Closed.

(** What the connection does with one [Write]: take all the bytes, or
    take the first [n] of them and report [err]. *)
Inductive WriteOutcome : Type :=
  | WriteOk
  | WriteFail (n : nat) (err : string).

(** An [http.ResponseWriter]: the response header, the bytes the
    connection has taken, the byte slices passed to [Write] in order, the
    number of flushes, whether it is an [http.Flusher], and what the
    connection will do with the coming writes (all of them succeed once
    the list is used up). *)
Record ResponseWriter : Type := mkResponseWriter {
  header : gmap string string;
  wire : string;
  submitted : list string;
  flushes : nat;
  is_flusher : bool;
  plan : list WriteOutcome
}.

(** [w.Header().Set(key, value)] *)
Definition header_set (key value : string) (w : ResponseWriter) : ResponseWriter :=
  mkResponseWriter (<[key := value]> (header w)) (wire w) (submitted w)
    (flushes w) (is_flusher w) (plan w).

(** [w.Write(p)]: the writer afterwards and the returned error. *)
Definition Write (p : string) (w : ResponseWriter) : ResponseWriter * error :=
  match plan w with
  | WriteFail n err :: rest =>
      (mkResponseWriter (header w) (wire w +:+ substring 0 n p)
         (submitted w ++ [p]) (flushes w) (is_flusher w) rest,
       Some err)
  | _ =>
      (mkResponseWriter (header w) (wire w +:+ p) (submitted w ++ [p])
         (flushes w) (is_flusher w) (tail (plan w)),
       None)
  end.

(** [if f, ok := w.(http.Flusher); ok { f.Flush() }] *)
Definition flush (w : ResponseWriter) : ResponseWriter :=
  if is_flusher w then
    mkResponseWriter (header w) (wire w) (submitted w) (S (flushes w))
      (is_flusher w) (plan w)
  else w.

Definition boundary : string := "BOUNDARY".

Definition multipart_content_type : string :=
  "multipart/x-mixed-replace; boundary=" +:+ boundary.

(** The three header lines of one part. *)
Definition part_boundary : string := crlf +:+ "--" +:+ boundary +:+ crlf.
Definition part_content_type (data : ImageBundle) : string :=
  "Content-Type: " +:+ ContentType data +:+ crlf.
Definition part_content_length (data : ImageBundle) : string :=
  "Content-Length: " +:+ Itoa (blen (Data data)) +:+ crlf +:+ crlf.

(** The [case data := <-ch] branch: four writes, each overwriting [err],
    then the test of the last [err] and the flush. The second component is
    what [fmt.Println] has printed. *)
Definition write_frame (data : ImageBundle) (w : ResponseWriter)
    (printed : list string) : ResponseWriter * list string :=
  let '(w1, err) := Write part_boundary w in
  let '(w2, err) := Write (part_content_type data) w1 in
  let '(w3, err) := Write (part_content_length data) w2 in
  let '(w4, err) := Write (Data data) w3 in
  let printed' :=
    match err with
    | Some e => printed ++ [e]
    | None => printed
    end in
  (flush w4, printed').

(** What the [select] of the session loop received. *)
Inductive SessionEvent : Type :=
  | CtxDone
  | Frame (data : ImageBundle).

(** One run of the handler returned by [streamHandleFunc], over a hub
    state [H]: its state, its channel, its writer, what it printed, the
    closure [unregister] and how often the deferred call of it ran. *)
Record Session (H : Type) : Type := mkSession {
  s_state : SessionState;
  s_chan : chan_id;
  s_writer : ResponseWriter;
  s_printed : list string;
  s_unregister : H → H;
  s_unregistered : nat
}.
Arguments mkSession {H} _ _ _ _ _ _.
Arguments s_state {H} _.
Arguments s_chan {H} _.
Arguments s_writer {H} _.
Arguments s_printed {H} _.
Arguments s_unregister {H} _.
Arguments s_unregistered {H} _.

(** The handler up to its loop: the channel [ch] it has made, the
    registration and the response header. *)
Definition session_open {H : Type} (R : Render H) (ch : chan_id)
    (w : ResponseWriter) (hub : H) : H * Session H :=
  let '(hub', unregister) := Register R ch hub in
  (hub',
   mkSession Streaming ch (header_set "Content-Type" multipart_content_type w)
     [] unregister 0).

(** One turn of the handler loop. On [CtxDone] the handler returns and
    its deferred calls run, last deferred first: the [Connection] header,
    then [unregister]. *)
Definition session_step {H : Type} (ev : SessionEvent) (hs : H * Session H)
  : H * Session H :=
  let '(hub, s) := hs in
  match s_state s with
  | Streaming =>
      match ev with
      | CtxDone =>
          (s_unregister s hub,
           mkSession Closed (s_chan s)
             (header_set "Connection" "close" (s_writer s))
             (s_printed s) (s_unregister s) (S (s_unregistered s)))
      | Frame data =>
          let '(w, printed) := write_frame data (s_writer s) (s_printed s) in
          (hub,
           mkSession Streaming (s_chan s) w printed (s_unregister s)
             (s_unregistered s))
      end
  | _ => hs
  end.

Definition session_run {H : Type} (evs : list SessionEvent) (hs : H * Session H)
  : H * Session H :=
  fold_left (fun st ev => session_step ev st) evs hs.

(** A writer on a fresh connection. *)
Definition new_writer (p : list WriteOutcome) : ResponseWriter :=
  mkResponseWriter ∅ EmptyString [] 0 true p.


(** Hubs and a frame for the examples. *)
Definition sample_game : GameRender := mkGameRender {[1%nat; 2%nat]}.
Definition sample_viewers : ViewersWorld := mkViewersWorld {[1%nat; 2%nat]} ∅.
Definition sample_frame : ImageBundle := mkImageBundle "<svg/>" svg_content_type.

(** A connection on which every write of the first frame fails, and the
    session of sink 7 on [sample_game] after it has received one frame
    over that connection. *)
Definition broken_writer : ResponseWriter :=
  new_writer (replicate 4 (WriteFail 0 "broken pipe")).

Definition after_failed_frame : GameRender * Session GameRender :=
  session_step (Frame sample_frame)
    (session_open GameRender_Render 7%nat broken_writer sample_game).

(** ** Goroutines and the membership map *)

(** A Go map is not safe for concurrent use. The run-time marks a map
    while an assignment or a [delete] is in progress, and a goroutine that
    starts a write or advances an iteration on a marked map stops the
    process with a fatal error. The steps below are the map accesses a
    goroutine makes; [None] is that fatal error. *)
Inductive MapStep : Type :=
  | StLen
  | StIterNext
  | StWriteBegin
  | StInsert (c : chan_id)
  | StDelete (c : chan_id).

Record GoMap : Type := mkGoMap { m_elems : gset chan_id; m_writing : bool }.

Definition map_step (st : MapStep) (m : GoMap) : option GoMap :=
  match st with
  | StLen => Some m
  | StIterNext => if m_writing m then None else Some m
  | StWriteBegin => if m_writing m then None else Some (mkGoMap (m_elems m) true)
  | StInsert c => Some (mkGoMap ({[c]} ∪ m_elems m) false)
  | StDelete c => Some (mkGoMap (m_elems m ∖ {[c]}) false)
  end.

Fixpoint map_run (sts : list MapStep) (m : GoMap) : option GoMap :=
  match sts with
  | [] => Some m
  | st :: rest =>
      match map_step st m with
      | Some m' => map_run rest m'
      | None => None
      end
  end.

Inductive goroutine : Type :=
  | GEngine
  | GOwner
  | GHandler (n : nat).

Definition goroutine_eqb (g h : goroutine) : bool :=
  match g, h with
  | GEngine, GEngine => true
  | GOwner, GOwner => true
  | GHandler n, GHandler k => Nat.eqb n k
  | _, _ => false
  end.

(** The steps of goroutine [g] in a list of steps tagged with the
    goroutine that makes them. *)
Fixpoint project (g : goroutine) (l : list (goroutine * MapStep))
  : list MapStep :=
  match l with
  | [] => []
  | (h, st) :: rest =>
      if goroutine_eqb g h then st :: project g rest else project g rest
  end.

(** [sched] is an execution of the steps [prog]: every goroutine makes its
    own steps in program order; nothing orders the steps of different
    goroutines. *)
Definition is_schedule (prog sched : list (goroutine * MapStep)) : Prop :=
  ∀ g, project g sched = project g prog.

Definition by_goroutine (g : goroutine) (sts : list MapStep)
  : list (goroutine * MapStep) :=
  map (fun st => (g, st)) sts.

(** [for ch := range m] over a map of [n] entries. *)
Definition range_steps (n : nat) : list MapStep := replicate (S n) StIterNext.

(** Map accesses of [GameRender]: [Register] and the closure it returns
    write [r.gameChs] in the calling goroutine (lines 214 and 216); one
    turn of the loop of [Start] reads it in the engine goroutine (lines
    186 and 202). *)
Definition GameRender_register_steps (caller : goroutine) (c : chan_id)
  : list (goroutine * MapStep) :=
  by_goroutine caller [StWriteBegin; StInsert c].

Definition GameRender_unregister_steps (caller : goroutine) (c : chan_id)
  : list (goroutine * MapStep) :=
  by_goroutine caller [StWriteBegin; StDelete c].

Definition GameRender_turn_steps (chs : gset chan_id)
  : list (goroutine * MapStep) :=
  by_goroutine GEngine
    (StLen :: if decide (size chs = 0%nat) then [] else range_steps (size chs)).

(** Map accesses of [ViewersRender]: [Register] and its closure only send
    on a channel; every access to [viewers] is made by the owner
    goroutine, one loop turn per received event (lines 241, 243, 248 and
    251). *)
Definition ViewersRender_call_steps (caller : goroutine) (ev : ViewerEvent)
  : list (goroutine * MapStep) := [].

Fixpoint ViewersRender_owner_steps (evs : list ViewerEvent) (vs : gset chan_id)
  : list (goroutine * MapStep) :=
  match evs with
  | [] => []
  | ev :: rest =>
      let '(writes, vs') :=
        match ev with
        | VJoin c => ([StWriteBegin; StInsert c], {[c]} ∪ vs)
        | VLeave c => ([StWriteBegin; StDelete c], vs ∖ {[c]})
        | VTick => ([], vs)
        end in
      by_goroutine GOwner (writes ++ StLen :: range_steps (size vs'))
        ++ ViewersRender_owner_steps rest vs'
  end.

(** ** The text form of a board *)

(** Concatenation of a list of texts. *)
Definition join (l : list string) : string := foldr String.append EmptyString l.

Definition newline : string := String lf EmptyString.

(** Inner loop body of [Board.String]: [s += "o"] or [s += "*"]. *)
Definition string_cell (b : Board) (i j : nat) (s : string) : option string :=
  if Get b (Z.of_nat i) (Z.of_nat j) then Some (s +:+ "o") else Some (s +:+ "*").

(** Outer loop body of [Board.String]; [len(b[i])] reads row [i]. *)
Definition string_row (b : Board) (i : nat) (s : string) : option string :=
  match b !! i with
  | None => None
  | Some row =>
      match for_range 0 (length row) (string_cell b i) s with
      | Some s' => Some (s' +:+ newline)
      | None => None
      end
  end.

(** [func (b Board) String() string] *)
Definition Board_String (b : Board) : option string :=
  for_range 0 (length b) (string_row b) EmptyString.

(** Reading the text form back: a line feed ends a row, ["o"] is a live
    cell and any other character a dead one. [row] holds the cells of the
    current line, last one first. *)
Fixpoint parse_board (s : string) (row : list bool) : Board :=
  match s with
  | EmptyString => []
  | String c s' =>
      if Ascii.eqb c lf then rev row :: parse_board s' []
      else parse_board s' (Ascii.eqb c "o" :: row)
  end.

(** The text of one cell and of one row, as the description of the
    format has them. *)
Definition cell_text (v : bool) : string := if v then "o" else "*".
Definition row_text (row : list bool) : string :=
  join (map cell_text row) +:+ newline.

(** ** What the encoder draws *)

(** The call [canvas.Rect(i*k, j*k, k, k, `fill="black"`)]. *)
Definition rect_at (cv : Svgo) (k : Z) (p : nat * nat) : string :=
  svg_Rect cv (GoInt.mul (Z.of_nat (fst p)) k) (GoInt.mul (Z.of_nat (snd p)) k)
    k k [attr "fill" "black"].

(** Positions of the live cells of a row from column [j] on, and of a
    board from row [i] on, in row-major order. *)
Fixpoint live_in_row (i j : nat) (row : list bool) : list (nat * nat) :=
  match row with
  | [] => []
  | v :: row' =>
      if v then (i, j) :: live_in_row i (S j) row' else live_in_row i (S j) row'
  end.

Fixpoint live_from (i : nat) (b : Board) : list (nat * nat) :=
  match b with
  | [] => []
  | row :: b' => live_in_row i 0 row ++ live_from (S i) b'
  end.

Definition live_cells (b : Board) : list (nat * nat) := live_from 0 b.

(** ** The random board, cell by cell *)

(** The cell [NewBoard] sets at row [i], column [j] of a board of rows of
    [h] cells, when the first draw is number [n]. *)
Definition drawn_cell (rnd : nat → Z) (n h i j : nat) : bool :=
  Z.rem (rnd (n + i * h + j)%nat) 5 =? 0.

(** Rows below [k] are final and [m] draws have been made. *)
Definition newboard_rows (rnd : nat → Z) (n w h k : nat) (s : Board * nat)
  : Prop :=
  snd s = (n + k * h)%nat ∧ length (fst s) = w ∧
  ∀ i, (i < k)%nat →
    fst s !! i = Some (map (drawn_cell rnd n h i) (seq 0 h)).

(** In row [i], columns below [j] are final and the others still
    [false]. *)
Definition newboard_cols (rnd : nat → Z) (n w h i j : nat) (s : Board * nat)
  : Prop :=
  snd s = (n + i * h + j)%nat ∧ length (fst s) = w ∧
  (∀ i', (i' < i)%nat →
     fst s !! i' = Some (map (drawn_cell rnd n h i') (seq 0 h))) ∧
  fst s !! i =
    Some (map (drawn_cell rnd n h i) (seq 0 j) ++ replicate (h - j) false).

(** ** The engine over a changing hub *)

(** One turn of the loop of [GameRender.Start] on the shared map as the
    turn finds it. The turn makes the map accesses of
    [GameRender_turn_steps]; when one of them meets a write in progress
    the run-time stops the process ([None]), otherwise the turn is
    [engine_iter] on the sinks the map holds. *)
Definition engine_turn (cv : Svgo) (gm : GoMap) (e : Engine) : option Engine :=
  match map_run (map snd (GameRender_turn_steps (m_elems gm))) gm with
  | None => None
  | Some _ => engine_iter cv (mkGameRender (m_elems gm)) e
  end.

(** The loop over the successive states [gms] of the shared map, one per
    turn. *)
Fixpoint engine_turns (cv : Svgo) (gms : list GoMap) (e : Engine)
  : option Engine :=
  match gms with
  | [] => Some e
  | gm :: gms' =>
      match engine_turn cv gm e with
      | Some e' => engine_turns cv gms' e'
      | None => None
      end
  end.

(** No turn finds the map in the middle of a write. *)
Definition quiet (gms : list GoMap) : bool :=
  forallb (fun gm => negb (m_writing gm)) gms.

(** Whether the loop finds a sink registered. *)
Definition busy (r : GameRender) : bool :=
  negb (bool_decide (size (gameChs r) = 0%nat)).

(** ** A hub publishing to sessions that come and go *)

(** What happens around one sink [ch] of a hub with members [chs]: the
    hub publishes a frame, or the session of a sink finishes the frame it
    holds and parks in its [select] again. *)
Inductive HubEvent : Type :=
  | HPublish (f : ImageBundle)
  | HReady (c : chan_id).

(** The store after the events, and the frames the [select] of the
    publish loop has sent on [ch], in order. *)
Fixpoint hub_run (chs : gset chan_id) (ch : chan_id) (evs : list HubEvent)
    (σ : gmap chan_id Chan) : gmap chan_id Chan * list ImageBundle :=
  match evs with
  | [] => (σ, [])
  | HPublish f :: rest =>
      let '(σ1, outs) := publish chs f σ in
      let '(σ2, got) := hub_run chs ch rest σ1 in
      (σ2, if bool_decide ((ch, true) ∈ outs) then f :: got else got)
  | HReady c :: rest =>
      hub_run chs ch rest (alter (fun x => park (consume x)) c σ)
  end.

Fixpoint published (evs : list HubEvent) : list ImageBundle :=
  match evs with
  | [] => []
  | HPublish f :: rest => f :: published rest
  | HReady _ :: rest => published rest
  end.

Fixpoint readies (ch : chan_id) (evs : list HubEvent) : nat :=
  match evs with
  | [] => 0%nat
  | HPublish _ :: rest => readies ch rest
  | HReady c :: rest =>
      if bool_decide (c = ch) then S (readies ch rest) else readies ch rest
  end.

(** ** The bytes of a stream *)

(** The four slices written for one frame, as one text. *)
Definition frame_text (data : ImageBundle) : string :=
  part_boundary +:+ part_content_type data +:+ part_content_length data
  +:+ Data data.

(** ** Raster images *)

(** [image.Rectangle], and [image.Rect], which swaps the coordinates it is
    given where needed so that the minimum is not above the maximum. *)
Record Rectangle : Type := mkRectangle {
  min_x : Z; min_y : Z; max_x : Z; max_y : Z
}.

Definition image_Rect (x0 y0 x1 y1 : Z) : Rectangle :=
  let '(x0, x1) := if x0 >? x1 then (x1, x0) else (x0, x1) in
  let '(y0, y1) := if y0 >? y1 then (y1, y0) else (y0, y1) in
  mkRectangle x0 y0 x1 y1.

(** The [image], [image/draw], [image/jpeg] and [image/png] packages are
    not part of this repository; what the calls made here do to an image
    of type [Img] is a parameter. [new_rgba] is [image.NewRGBA] ([None]
    when it panics on the size), [draw_black] is [draw.Draw] with the
    uniform source [color.RGBA{A: 255}], the zero source point and
    [draw.Src]; the encoders give the bytes they wrote and their error. *)
Record Imaging (Img : Type) : Type := mkImaging {
  new_rgba : Rectangle → option Img;
  draw_black : Img → Rectangle → Img;
  jpeg_Encode : Img → string * error;
  png_Encode : Img → string * error
}.
Arguments new_rgba {Img} _ _.
Arguments draw_black {Img} _ _ _.
Arguments jpeg_Encode {Img} _ _.
Arguments png_Encode {Img} _ _.

(** The rectangle [image.Rect(k*i, k*j, k*(i+1), k*(j+1))]. *)
Definition cell_rect (k : Z) (p : nat * nat) : Rectangle :=
  image_Rect (GoInt.mul k (Z.of_nat (fst p))) (GoInt.mul k (Z.of_nat (snd p)))
    (GoInt.mul k (GoInt.add (Z.of_nat (fst p)) 1))
    (GoInt.mul k (GoInt.add (Z.of_nat (snd p)) 1)).

(** Inner and outer loop bodies of [Board.image]. *)
Definition image_cell {Img : Type} (im : Imaging Img) (b : Board) (k : Z)
    (i j : nat) (img : Img) : option Img :=
  match b !! i with
  | None => None
  | Some row =>
      match row !! j with
      | None => None
      | Some v =>
          if negb v then Some img
          else Some (draw_black im img (cell_rect k (i, j)))
      end
  end.

Definition image_row {Img : Type} (im : Imaging Img) (b : Board) (k : Z)
    (i : nat) (img : Img) : option Img :=
  match b !! i with
  | None => None
  | Some row => for_range 0 (length row) (image_cell im b k i) img
  end.

(** [func (b Board) image(scale int) image.Image]; [None] is a panic. *)
Definition Board_image {Img : Type} (im : Imaging Img) (b : Board) (scale : Z)
  : option Img :=
  let k := scale in
  match b !! 0%nat with
  | None => None
  | Some row0 =>
      match new_rgba im (image_Rect 0 0 (GoInt.mul k (len b))
                           (GoInt.mul k (len row0))) with
      | None => None
      | Some img => for_range 0 (length b) (image_row im b k) img
      end
  end.

(** The [if err := ...Encode(...); err != nil] of [Jpeg] and [Png]: nil
    bytes with the error, or the bytes of the buffer. *)
Definition encoded (out : string * error) : string * error :=
  match snd out with
  | Some err => (EmptyString, Some err)
  | None => (fst out, None)
  end.

(** [func (b Board) Jpeg(scale int) ([]byte, error)] *)
Definition Jpeg {Img : Type} (im : Imaging Img) (b : Board) (scale : Z)
  : option (string * error) :=
  match Board_image im b scale with
  | None => None
  | Some img => Some (encoded (jpeg_Encode im img))
  end.

(** [func (b Board) Png(scale int) ([]byte, error)] *)
Definition Png {Img : Type} (im : Imaging Img) (b : Board) (scale : Z)
  : option (string * error) :=
  match Board_image im b scale with
  | None => None
  | Some img => Some (encoded (png_Encode im img))
  end.

(** An image kept as the list of rectangles painted on it, latest first,
    with encoders that fail on an image nothing was painted on; for the
    examples. *)
Definition sample_imaging : Imaging (list Rectangle) :=
  mkImaging (list Rectangle)
    (fun r => Some [])
    (fun img r => r :: img)
    (fun img => match img with
                | [] => ("JFIF", Some "nothing to encode")
                | _ => ("JFIF", None)
                end)
    (fun img => ("PNG", None)).

(** ** Evolute on the heap *)

(** Slices share their backing arrays, so that [Evolute] returns new
    arrays and leaves those of its argument alone is a statement about
    memory. An array is named by its address; the arrays of slice headers
    (the backing arrays of a [Board]) and the arrays of cells (those of a
    [[]bool]) are kept apart. Every slice of this program spans its whole
    array ([make], and no re-slicing), so a slice is [nil] or the address
    of its array. *)
Definition addr : Type := nat.

Record Mem : Type := mkMem {
  outers : gmap addr (list (option addr));
  inners : gmap addr (list bool)
}.

(** The row and the board a slice stands for; [None] on an address that
    holds no array. *)
Definition row_of (m : Mem) (hdr : option addr) : option (list bool) :=
  match hdr with
  | None => Some []
  | Some a => inners m !! a
  end.

Definition board_of (m : Mem) (board : option addr) : option Board :=
  match board with
  | None => Some []
  | Some a =>
      match outers m !! a with
      | Some hdrs => mapM (row_of m) hdrs
      | None => None
      end
  end.

(** [len(b)], [b[i]], [len(b[i])] and [b[i][j]], read from memory. *)
Definition mem_len_board (m : Mem) (board : option addr) : nat :=
  match board with
  | None => 0%nat
  | Some a => length (default [] (outers m !! a))
  end.

Definition mem_row (m : Mem) (board : option addr) (i : nat)
  : option (option addr) :=
  match board with
  | None => None
  | Some a => default [] (outers m !! a) !! i
  end.

Definition mem_len_row (m : Mem) (hdr : option addr) : nat :=
  match hdr with
  | None => 0%nat
  | Some a => length (default [] (inners m !! a))
  end.

Definition mem_cell (m : Mem) (hdr : option addr) (j : nat) : option bool :=
  match hdr with
  | None => None
  | Some a => default [] (inners m !! a) !! j
  end.

(** [Board.Get] on memory. *)
Definition Get_mem (m : Mem) (board : option addr) (i j : Z) : bool :=
  if (i <? 0) || (i >=? Z.of_nat (mem_len_board m board)) then false
  else
    match mem_row m board (Z.to_nat i) with
    | None => false
    | Some hdr =>
        if (j <? 0) || (j >=? Z.of_nat (mem_len_row m hdr)) then false
        else default false (mem_cell m hdr (Z.to_nat j))
    end.

Definition count_neighbours_mem (m : Mem) (board : option addr) (i j : Z) : Z :=
  fold_left
    (fun cnt dir =>
       if Get_mem m board (GoInt.add i (fst dir)) (GoInt.add j (snd dir))
       then GoInt.add cnt 1 else cnt)
    directions 0.

Definition next_cell_mem (m : Mem) (board : option addr) (i j : Z) (cnt : Z)
  : bool :=
  if cnt =? 2 then Get_mem m board i j
  else if cnt =? 3 then true
  else false.

(** [make]: a new array at an address no array has. *)
Definition alloc_inner (m : Mem) (row : list bool) : Mem * addr :=
  let a := fresh (dom (inners m)) in
  (mkMem (outers m) (<[a := row]> (inners m)), a).

Definition alloc_outer (m : Mem) (hdrs : list (option addr)) : Mem * addr :=
  let a := fresh (dom (outers m)) in
  (mkMem (<[a := hdrs]> (outers m)) (inners m), a).

(** [newBoard[i] = hdr] and [newBoard[i][j] = v], on the array at [nb];
    [None] is an index out of range. *)
Definition store_row (m : Mem) (nb : addr) (i : nat) (hdr : option addr)
  : option Mem :=
  match outers m !! nb with
  | Some hdrs =>
      if decide (i < length hdrs)%nat
      then Some (mkMem (<[nb := <[i := hdr]> hdrs]> (outers m)) (inners m))
      else None
  | None => None
  end.

Definition store_cell (m : Mem) (nb : addr) (i j : nat) (v : bool)
  : option Mem :=
  match outers m !! nb with
  | Some hdrs =>
      match hdrs !! i with
      | Some (Some a) =>
          match inners m !! a with
          | Some row =>
              if decide (j < length row)%nat
              then Some (mkMem (outers m) (<[a := <[j := v]> row]> (inners m)))
              else None
          | None => None
          end
      | _ => None
      end
  | None => None
  end.

(** The loops of [Evolute], reading the argument [board] and writing the
    new board at [nb] in the same memory. *)
Definition evolute_mem_cell (board : option addr) (nb : addr) (i j : nat)
    (m : Mem) : option Mem :=
  let cnt := count_neighbours_mem m board (Z.of_nat i) (Z.of_nat j) in
  store_cell m nb i j (next_cell_mem m board (Z.of_nat i) (Z.of_nat j) cnt).

Definition evolute_mem_row (board : option addr) (nb : addr) (i : nat)
    (m : Mem) : option Mem :=
  match mem_row m board i with
  | None => None
  | Some hdr =>
      let '(m1, a) := alloc_inner m (replicate (mem_len_row m hdr) false) in
      match store_row m1 nb i (Some a) with
      | None => None
      | Some m2 =>
          for_range 0 (mem_len_row m hdr) (evolute_mem_cell board nb i) m2
      end
  end.

(** [func Evolute(board Board) Board], with the memory before and
    after. *)
Definition Evolute_mem (m : Mem) (board : option addr)
  : option (Mem * option addr) :=
  let n := mem_len_board m board in
  let '(m1, nb) := alloc_outer m (replicate n None) in
  match for_range 0 n (evolute_mem_row board nb) m1 with
  | Some m' => Some (m', Some nb)
  | None => None
  end.

(** The rule of the game and the successor of a board, in the words of
    their description. *)
Definition life_rule (v : bool) (n : nat) : bool :=
  if v then Nat.eqb n 2 || Nat.eqb n 3 else Nat.eqb n 3.

Definition life_step (b : Board) : Board :=
  imap (fun i row =>
          imap (fun j v =>
                  life_rule v (live_neighbours b (Z.of_nat i) (Z.of_nat j)))
            row)
    b.

(** The row [Evolute] computes for row [i], and its first [j] cells
    followed by the cells not yet written. *)
Definition successor_row (b : Board) (i : nat) : list bool :=
  map (cell_value b i) (seq 0 (length (default [] (b !! i)))).

Definition partial_row (b : Board) (i len j : nat) : list bool :=
  map (cell_value b i) (seq 0 j) ++ replicate (len - j) false.

(** Invariant of the outer loop of [Evolute_mem] started in memory [m0]:
    the arrays of [m0] are untouched, and the first [k] rows of the new
    board are final, each in an array of its own that [m0] does not
    have. *)
Definition mem_outer_inv (m0 : Mem) (b : Board) (nb : addr) (k : nat)
    (m : Mem) : Prop :=
  outers m0 ⊆ outers m ∧ inners m0 ⊆ inners m ∧
  ∃ addrs : list addr,
    length addrs = k ∧ NoDup addrs ∧
    Forall (fun a => inners m0 !! a = None) addrs ∧
    outers m !! nb = Some ((Some <$> addrs) ++ replicate (length b - k) None) ∧
    ∀ i a, addrs !! i = Some a → inners m !! a = Some (successor_row b i).

(** A memory with a two-row board at address 5, for the examples. *)
Definition sample_mem : Mem :=
  mkMem {[5%nat := [Some 1%nat; Some 2%nat]]}
        {[1%nat := [true; true]; 2%nat := [true; false]]}.

(** * Properties *)

(** ** Go integers *)

Lemma wrap_in_range (x : Z) : GoInt.in_range x → GoInt.wrap x = x.
Proof.
  unfold GoInt.in_range, GoInt.wrap, GoInt.min_int, GoInt.max_int.
  intros Hx.
  assert (H64 : 2 ^ 64 = 2 * 2 ^ 63) by reflexivity.
  assert (H63 : 0 < 2 ^ 63) by reflexivity.
  rewrite Z.mod_small; lia.
Qed.

Lemma add_in_range (x y : Z) : GoInt.in_range (x + y) → GoInt.add x y = x + y.
Proof. apply wrap_in_range. Qed.

(** ** Loops *)

(** The invariant rule of [for_range]: a loop whose body keeps [P] and
    never panics runs to its end. *)
Lemma for_range_inv {St : Type} (P : nat → St → Prop)
    (body : nat → St → option St) (n lo : nat) (s : St) :
  P lo s →
  (∀ k t, (lo ≤ k < lo + n)%nat → P k t → ∃ t', body k t = Some t' ∧ P (S k) t') →
  ∃ s', for_range lo n body s = Some s' ∧ P (lo + n)%nat s'.
Proof.
  revert lo s. induction n as [|n IH]; intros lo s Hs Hbody; simpl.
  - exists s. rewrite Nat.add_0_r. done.
  - destruct (Hbody lo s) as (t & -> & Ht); [lia | done |].
    destruct (IH (S lo) t Ht) as (s' & Hrun & Hs').
    + intros k u Hk Hu. apply Hbody; [lia | done].
    + exists s'. split; [done |]. by rewrite Nat.add_succ_r.
Qed.

(** ** Evolute *)

Section EvoluteLoops.

Variable b : Board.

Lemma evolute_cell_inv (nb0 : Board) (i m j : nat) (s : EvState) :
  (i < length nb0)%nat → (j < m)%nat →
  inner_inv b nb0 i m j s →
  ∃ s', evolute_cell i j s = Some s' ∧ inner_inv b nb0 i m (S j) s'.
Proof.
  intros Hi Hj (Hb & r & Hnb & Hlen & Hdone).
  unfold evolute_cell, set_cell. rewrite Hnb, Hb.
  rewrite list_lookup_insert_eq by done.
  rewrite decide_True by lia.
  eexists. split; [done |]. split; [done |]. simpl.
  exists (<[j := cell_value b i j]> r). split; [| split].
  - by rewrite list_insert_insert_eq.
  - by rewrite length_insert.
  - intros j' Hj'. destruct (decide (j' = j)) as [-> | Hne].
    + by rewrite list_lookup_insert_eq by lia.
    + rewrite list_lookup_insert_ne by done. apply Hdone. lia.
Qed.

Lemma evolute_row_inv (k : nat) (s : EvState) :
  (k < length b)%nat → outer_inv b k s →
  ∃ s', evolute_row k s = Some s' ∧ outer_inv b (S k) s'.
Proof.
  intros Hk (Hb & Hlen & Hdone).
  destruct (lookup_lt_is_Some_2 b k Hk) as [row Hrow].
  unfold evolute_row, set_row. rewrite Hb, Hrow.
  rewrite decide_True by lia.
  set (nb0 := <[k := replicate (length row) false]> (newBoard s)).
  assert (Hk0 : (k < length nb0)%nat) by (unfold nb0; rewrite length_insert; lia).
  destruct (for_range_inv (inner_inv b nb0 k (length row)) (evolute_cell k)
              (length row) 0 (mkEvState b nb0)) as (s' & Hrun & Hs').
  - split; [done |]. exists (replicate (length row) false). simpl.
    split; [| split].
    + unfold nb0. by rewrite list_insert_insert_eq.
    + by rewrite length_replicate.
    + intros j' Hj'. lia.
  - intros j t Hj Ht. apply evolute_cell_inv; [done | lia | done].
  - exists s'. split; [done |].
    destruct Hs' as (Hb' & r & Hnb' & Hr & Hcells). simpl in Hcells.
    split; [done |]. split.
    + rewrite Hnb', length_insert. unfold nb0. by rewrite length_insert.
    + intros i Hi row0 Hrow0. destruct (decide (i = k)) as [-> | Hne].
      * assert (row0 = row) as -> by congruence.
        exists r. rewrite Hnb'. rewrite list_lookup_insert_eq by done. done.
      * destruct (Hdone i ltac:(lia) row0 Hrow0) as (row' & Hl & Hlen' & Hc).
        exists row'. rewrite Hnb'. rewrite list_lookup_insert_ne by done.
        unfold nb0. rewrite list_lookup_insert_ne by done. done.
Qed.

Lemma evolute_run_spec :
  ∃ s, evolute_run b = Some s ∧ outer_inv b (length b) s.
Proof.
  unfold evolute_run.
  destruct (for_range_inv (outer_inv b) evolute_row (length b) 0
              (mkEvState b (replicate (length b) []))) as (s & Hrun & Hs).
  - split; [done |]. split; [simpl; by rewrite length_replicate |].
    intros i Hi. lia.
  - intros k t Hk Ht. apply evolute_row_inv; [lia | done].
  - exists s. done.
Qed.

End EvoluteLoops.

(** ** The rule computed by the loop body *)

Lemma Get_alive (b : Board) (i j : Z) : Get b i j = alive b i j.
Proof.
  unfold Get, alive, len.
  destruct (Z.ltb_spec i 0) as [Hi | Hi]; simpl.
  { rewrite (proj2 (Z.leb_gt 0 i)) by lia. done. }
  rewrite (proj2 (Z.leb_le 0 i)) by lia. simpl.
  destruct (Z.geb_spec i (Z.of_nat (length b))) as [Hi' | Hi'].
  { rewrite (proj2 (lookup_ge_None b (Z.to_nat i))) by lia.
    by destruct (0 <=? j). }
  destruct (b !! Z.to_nat i) as [row |]; [| by destruct (0 <=? j)].
  destruct (Z.ltb_spec j 0) as [Hj | Hj]; simpl.
  { rewrite (proj2 (Z.leb_gt 0 j)) by lia. done. }
  rewrite (proj2 (Z.leb_le 0 j)) by lia.
  destruct (Z.geb_spec j (Z.of_nat (length row))) as [Hj' | Hj'].
  { rewrite (proj2 (lookup_ge_None row (Z.to_nat j))) by lia. done. }
  by destruct (row !! Z.to_nat j).
Qed.

Lemma neighbour_offsets_eq :
  neighbour_offsets =
  [ (-1, -1); (-1, 0); (-1, 1); (0, -1); (0, 1); (1, -1); (1, 0); (1, 1) ].
Proof. reflexivity. Qed.

(** The loop over [directions] counts the live positions among the eight
    around the cell, as long as the index arithmetic stays inside [int]. *)
Lemma count_neighbours_spec (b : Board) (i j : Z) :
  GoInt.min_int < i < GoInt.max_int → GoInt.min_int < j < GoInt.max_int →
  count_neighbours b i j = Z.of_nat (live_neighbours b i j).
Proof.
  intros Hi Hj.
  unfold count_neighbours, live_neighbours, directions.
  rewrite neighbour_offsets_eq. cbn [fold_left List.filter fst snd].
  rewrite !Get_alive.
  rewrite (add_in_range i 1), (add_in_range i 0), (add_in_range i (-1)),
    (add_in_range j 1), (add_in_range j 0), (add_in_range j (-1))
    by (unfold GoInt.in_range; lia).
  destruct (alive b (i + 1) (j + 1)), (alive b (i + 1) (j + 0)),
    (alive b (i + 1) (j + -1)), (alive b (i + 0) (j + 1)),
    (alive b (i + 0) (j + -1)), (alive b (i + -1) (j + 1)),
    (alive b (i + -1) (j + 0)), (alive b (i + -1) (j + -1));
    vm_compute; reflexivity.
Qed.

Lemma well_sized_index (b : Board) (i j : nat) (row : list bool) :
  well_sized b = true → b !! i = Some row → (j < length row)%nat →
  GoInt.min_int < Z.of_nat i < GoInt.max_int ∧
  GoInt.min_int < Z.of_nat j < GoInt.max_int.
Proof.
  unfold well_sized, len. intros Hws Hrow Hj.
  apply andb_prop in Hws as [Hrows Hcols].
  apply Z.leb_le in Hrows.
  rewrite forallb_forall in Hcols.
  assert (Hin : In row b).
  { apply list_elem_of_In. by eapply list_elem_of_lookup_2. }
  apply Hcols, Z.leb_le in Hin.
  apply lookup_lt_Some in Hrow.
  unfold GoInt.min_int. assert (0 < 2 ^ 63) by reflexivity. lia.
Qed.

Lemma alive_lookup (b : Board) (i j : nat) (row : list bool) (v : bool) :
  b !! i = Some row → row !! j = Some v → alive b (Z.of_nat i) (Z.of_nat j) = v.
Proof.
  intros Hrow Hv. unfold alive.
  rewrite (proj2 (Z.leb_le 0 (Z.of_nat i))), (proj2 (Z.leb_le 0 (Z.of_nat j)))
    by lia.
  simpl. rewrite !Nat2Z.id, Hrow, Hv. done.
Qed.

(** The successor board exists, and its cell at an in-bounds position is
    the value of the loop body there. *)
Lemma Evolute_cell (b : Board) (i j : nat) (row : list bool) :
  b !! i = Some row → (j < length row)%nat →
  ∃ nb, Evolute b = Some nb ∧
    alive nb (Z.of_nat i) (Z.of_nat j) = cell_value b i j.
Proof.
  intros Hrow Hj.
  destruct (evolute_run_spec b) as (s & Hrun & _ & _ & Hdone).
  unfold Evolute. rewrite Hrun. exists (newBoard s). split; [done |].
  destruct (Hdone i (lookup_lt_Some _ _ _ Hrow) row Hrow)
    as (row' & Hrow' & _ & Hcells).
  apply (alive_lookup _ _ _ row'); [done |]. by apply Hcells.
Qed.

(** [Evolute] returns, and keeps the number of rows. *)
Lemma Evolute_rows (b : Board) :
  ∃ nb, Evolute b = Some nb ∧ length nb = length b.
Proof.
  destruct (evolute_run_spec b) as (s & Hrun & _ & Hlen & _).
  exists (newBoard s). unfold Evolute. by rewrite Hrun.
Qed.

(** C1. For every board whose slice lengths are Go ints and every
    in-bounds cell, [Evolute] returns a board in which that cell is live
    exactly when it was live with 2 or 3 live neighbours, or dead with
    exactly 3 live neighbours; the neighbours are the eight adjacent
    positions, and a position off the board counts as dead. *)
Theorem Evolute_rule (b : Board) (i j : nat) (row : list bool) :
  well_sized b = true → b !! i = Some row → (j < length row)%nat →
  ∃ nb, Evolute b = Some nb ∧
    (alive nb (Z.of_nat i) (Z.of_nat j) = true ↔
       (alive b (Z.of_nat i) (Z.of_nat j) = true ∧
        (live_neighbours b (Z.of_nat i) (Z.of_nat j) = 2%nat ∨
         live_neighbours b (Z.of_nat i) (Z.of_nat j) = 3%nat)) ∨
       (alive b (Z.of_nat i) (Z.of_nat j) = false ∧
        live_neighbours b (Z.of_nat i) (Z.of_nat j) = 3%nat)).
Proof.
  intros Hws Hrow Hj.
  destruct (Evolute_cell b i j row Hrow Hj) as (nb & Hev & Hcell).
  destruct (well_sized_index b i j row Hws Hrow Hj) as [Hi' Hj'].
  exists nb. split; [done |]. rewrite Hcell.
  unfold cell_value, next_cell.
  rewrite count_neighbours_spec, Get_alive by done.
  set (n := live_neighbours b (Z.of_nat i) (Z.of_nat j)).
  destruct (Z.eqb_spec (Z.of_nat n) 2) as [H2 | H2].
  { destruct (alive b (Z.of_nat i) (Z.of_nat j)); split;
      intros; try discriminate; [left; split; [done | lia] | done |].
    destruct H as [[? ?] | [? ?]]; [discriminate | lia]. }
  destruct (Z.eqb_spec (Z.of_nat n) 3) as [H3 | H3].
  { destruct (alive b (Z.of_nat i) (Z.of_nat j)); split; intros; try done;
      [left | right]; (split; [done | lia]). }
  split; [discriminate |]. intros [[_ [? | ?]] | [_ ?]]; lia.
Qed.

(** C1, on the glider: the cell at row 1, column 0 is dead with three
    live neighbours and becomes live. *)
Lemma Evolute_rule_witness :
  ∃ nb, Evolute glider = Some nb ∧
    (alive nb 1 0 = true ↔
       (alive glider 1 0 = true ∧
        (live_neighbours glider 1 0 = 2%nat ∨
         live_neighbours glider 1 0 = 3%nat)) ∨
       (alive glider 1 0 = false ∧ live_neighbours glider 1 0 = 3%nat)).
Proof.
  apply (Evolute_rule glider 1 0 [false; false; true; false]).
  - vm_compute. reflexivity.
  - reflexivity.
  - simpl. lia.
Defined.

(** On board values: [Evolute] always returns, and the board it returns
    has as many rows as its argument, each as long as the
    argument's. *)
Theorem Evolute_shape (b : Board) :
  ∃ s, evolute_run b = Some s ∧ Evolute b = Some (newBoard s) ∧
    board s = b ∧
    length (newBoard s) = length b ∧
    map length (newBoard s) = map length b.
Proof.
  destruct (evolute_run_spec b) as (s & Hrun & Hb & Hlen & Hdone).
  exists s. unfold Evolute. rewrite Hrun. repeat split; try done.
  apply list_eq. intros i. rewrite !list_lookup_fmap.
  destruct (b !! i) as [row |] eqn:Hrow; simpl.
  - destruct (Hdone i (lookup_lt_Some _ _ _ Hrow) row Hrow)
      as (row' & -> & Hlen' & _).
    simpl. by rewrite Hlen'.
  - apply lookup_ge_None in Hrow.
    rewrite (proj2 (lookup_ge_None (newBoard s) i)) by lia. done.
Qed.

(** ** Publishing *)

Lemma select_send_lookup (ch ch' : chan_id) (f : ImageBundle)
    (σ : gmap chan_id Chan) :
  fst (select_send ch f σ) !! ch' =
  if decide (ch' = ch) then deliver f <$> σ !! ch' else σ !! ch'.
Proof.
  unfold select_send, try_send, deliver.
  destruct (decide (ch' = ch)) as [-> | Hne].
  - destruct (σ !! ch) as [c |] eqn:Hc; simpl; [| by rewrite Hc].
    destruct (parked c); simpl; [by rewrite lookup_insert_eq | by rewrite Hc].
  - destruct (σ !! ch) as [c |]; simpl; [| done].
    destruct (parked c); simpl; [by rewrite lookup_insert_ne | done].
Qed.

Lemma select_send_sent (ch : chan_id) (f : ImageBundle) (σ : gmap chan_id Chan) :
  snd (select_send ch f σ) = ready σ ch.
Proof.
  unfold select_send, try_send, ready.
  destruct (σ !! ch) as [c |]; [| done]. by destruct (parked c).
Qed.

Lemma select_send_ready (ch ch' : chan_id) (f : ImageBundle)
    (σ : gmap chan_id Chan) :
  ch' ≠ ch → ready (fst (select_send ch f σ)) ch' = ready σ ch'.
Proof.
  intros Hne. unfold ready. rewrite select_send_lookup.
  by rewrite decide_False.
Qed.

Lemma publish_in_cons (ch : chan_id) (rest : list chan_id) (f : ImageBundle)
    (σ : gmap chan_id Chan) :
  publish_in (ch :: rest) f σ =
  (fst (publish_in rest f (fst (select_send ch f σ))),
   (ch, snd (select_send ch f σ))
     :: snd (publish_in rest f (fst (select_send ch f σ)))).
Proof.
  simpl. destruct (select_send ch f σ) as [σ1 sent]. simpl.
  by destruct (publish_in rest f σ1).
Qed.

(** The loop visits the sinks in an order Go does not fix; whatever the
    order, each sink is touched once, by [deliver]. *)
Lemma publish_in_lookup (order : list chan_id) (f : ImageBundle)
    (σ : gmap chan_id Chan) (ch : chan_id) :
  NoDup order →
  fst (publish_in order f σ) !! ch =
  if decide (ch ∈ order) then deliver f <$> σ !! ch else σ !! ch.
Proof.
  intros Hnd. revert σ. induction Hnd as [| c rest Hc Hnd IH]; intros σ.
  - simpl. by destruct (decide (ch ∈ [])).
  - rewrite publish_in_cons. cbn [fst]. rewrite IH, select_send_lookup.
    destruct (decide (ch = c)) as [-> | Hne].
    + rewrite (decide_False (P := c ∈ rest)) by done.
      rewrite (decide_True (P := c ∈ c :: rest)) by set_solver. done.
    + destruct (decide (ch ∈ rest)) as [Hin | Hnin].
      * rewrite (decide_True (P := ch ∈ c :: rest)); [done |].
        by apply list_elem_of_further.
      * rewrite (decide_False (P := ch ∈ c :: rest)); [done |].
        by apply not_elem_of_cons.
Qed.

Lemma publish_in_outcomes (order : list chan_id) (f : ImageBundle)
    (σ : gmap chan_id Chan) :
  NoDup order →
  snd (publish_in order f σ) = map (fun c => (c, ready σ c)) order.
Proof.
  intros Hnd. revert σ. induction Hnd as [| c rest Hc Hnd IH]; intros σ.
  - done.
  - rewrite publish_in_cons. simpl. rewrite IH, select_send_sent. f_equal.
    apply map_ext_in. intros c' Hc'. f_equal.
    apply select_send_ready. intros ->. apply Hc. by apply list_elem_of_In.
Qed.

Lemma publish_lookup (chs : gset chan_id) (f : ImageBundle)
    (σ : gmap chan_id Chan) (ch : chan_id) :
  fst (publish chs f σ) !! ch =
  if decide (ch ∈ chs) then deliver f <$> σ !! ch else σ !! ch.
Proof.
  unfold publish. rewrite publish_in_lookup by apply NoDup_elements.
  destruct (decide (ch ∈ chs)) as [Hin | Hnin].
  - rewrite (decide_True (P := ch ∈ elements chs)); [done |].
    by apply elem_of_elements.
  - rewrite (decide_False (P := ch ∈ elements chs)); [done |].
    by rewrite elem_of_elements.
Qed.

(** A sink whose receiver is not parked is left as it is. *)
Lemma deliver_not_parked (f : ImageBundle) (c : Chan) :
  parked c = false → deliver f c = c.
Proof. unfold deliver. by intros ->. Qed.

Lemma deliver_twice (f g : ImageBundle) (c : Chan) :
  deliver g (deliver f c) = deliver f c.
Proof. unfold deliver. destruct (parked c) eqn:Hp; simpl; by rewrite ?Hp. Qed.

Lemma publish_twice (chs : gset chan_id) (f g : ImageBundle)
    (σ : gmap chan_id Chan) :
  fst (publish chs g (fst (publish chs f σ))) = fst (publish chs f σ).
Proof.
  apply map_eq. intros ch. rewrite !publish_lookup.
  destruct (decide (ch ∈ chs)); [| done].
  destruct (σ !! ch) as [c |]; simpl; [| done]. by rewrite deliver_twice.
Qed.

Lemma publish_many_after (chs : gset chan_id) (f : ImageBundle)
    (fs : list ImageBundle) (σ : gmap chan_id Chan) :
  publish_many chs fs (fst (publish chs f σ)) = fst (publish chs f σ).
Proof.
  induction fs as [| g fs IH]; simpl; [done |].
  by rewrite publish_twice.
Qed.

Lemma deliver_held (f : ImageBundle) (c : Chan) :
  (length (held (deliver f c)) ≤ length (held c) + 1)%nat.
Proof.
  unfold deliver. destruct (parked c); simpl; [| lia].
  rewrite length_app. simpl. lia.
Qed.

(** C2. A publish hands the frame to a registered sink exactly when that
    sink can take it at once and leaves every other sink untouched; the
    loop runs one [select] per registered sink and ends; and of [N]
    frames published in a row with no step of the session in between,
    only the first can reach a sink, so a sink gains at most one frame. *)
Theorem publish_never_queues (chs : gset chan_id) (σ : gmap chan_id Chan)
    (f : ImageBundle) (fs : list ImageBundle) (ch : chan_id) :
  fst (publish chs f σ) !! ch =
    (if decide (ch ∈ chs) then deliver f <$> σ !! ch else σ !! ch) ∧
  snd (publish chs f σ) = map (fun c => (c, ready σ c)) (elements chs) ∧
  publish_many chs (f :: fs) σ = fst (publish chs f σ) ∧
  (frames_held (publish_many chs (f :: fs) σ) ch ≤ frames_held σ ch + 1)%nat ∧
  (if ready σ ch then True
   else publish_many chs (f :: fs) σ !! ch = σ !! ch).
Proof.
  split; [apply publish_lookup |].
  split; [apply publish_in_outcomes, NoDup_elements |].
  split; [apply publish_many_after |].
  simpl. rewrite publish_many_after. unfold frames_held, ready.
  rewrite publish_lookup.
  destruct (decide (ch ∈ chs)), (σ !! ch) as [c |] eqn:Hc; simpl.
  - split; [apply deliver_held |].
    destruct (parked c) eqn:Hp; [done |]. by rewrite deliver_not_parked.
  - split; [lia | done].
  - split; [lia |]. by destruct (parked c).
  - split; [lia | done].
Qed.

(** ** The encoder and the initial board *)

Lemma svg_row_total (cv : Svgo) (b : Board) (k : Z) (i : nat) (buf : string) :
  (i < length b)%nat → ∃ buf', svg_row cv b k i buf = Some buf'.
Proof.
  intros Hi. destruct (lookup_lt_is_Some_2 b i Hi) as [row Hrow].
  unfold svg_row. rewrite Hrow.
  destruct (for_range_inv (fun _ _ => True) (svg_cell cv b k i) (length row) 0 buf)
    as (buf' & Hrun & _); [done | | by exists buf'].
  intros j t Hj _.
  destruct (lookup_lt_is_Some_2 row j ltac:(lia)) as [v Hv].
  unfold svg_cell. rewrite Hrow, Hv. destruct v; simpl; eauto.
Qed.

Lemma Svg_total (cv : Svgo) (b : Board) (scale : Z) :
  b ≠ [] → ∃ img, Svg cv b scale = Some (img, None).
Proof.
  intros Hb. unfold Svg.
  destruct b as [| row0 rest]; [done |]. cbn [lookup list_lookup].
  destruct (for_range_inv (fun _ _ => True) (svg_row cv (row0 :: rest) scale)
              (length (row0 :: rest)) 0
              (svg_Start cv (GoInt.mul scale (len (row0 :: rest)))
                 (GoInt.mul scale (len row0))))
    as (buf' & Hrun & _); [done | |].
  - intros i t Hi _. destruct (svg_row_total cv (row0 :: rest) scale i t) as [t' Ht'].
    + lia.
    + by exists t'.
  - rewrite Hrun. eauto.
Qed.

Lemma Svg_empty (cv : Svgo) (scale : Z) : Svg cv [] scale = None.
Proof. reflexivity. Qed.

Lemma printlns_app (t u : list Effect) :
  printlns (t ++ u) = (printlns t + printlns u)%nat.
Proof.
  induction t as [| x t IH]; simpl; [done |]. destruct x; simpl; lia.
Qed.

Lemma evolutions_app (t u : list Effect) :
  evolutions (t ++ u) = (evolutions t + evolutions u)%nat.
Proof.
  induction t as [| x t IH]; simpl; [done |]. destruct x; simpl; lia.
Qed.

Lemma selects_app (t u : list Effect) :
  selects (t ++ u) = (selects t + selects u)%nat.
Proof.
  induction t as [| x t IH]; simpl; [done |]. destruct x; simpl; lia.
Qed.

Lemma printlns_selects (outs : list (chan_id * bool)) :
  printlns (map (fun o => EffSelect (fst o) (snd o)) outs) = 0%nat.
Proof. induction outs as [| o outs IH]; simpl; done. Qed.

(** C10 (amended). For every board with at least one row and every
    scale, [Board.Svg] returns a nil error; hence a turn of the engine
    loop on such a board never prints an encoding error, and leaves a
    board with at least one row for the next turn. *)
Theorem Svg_error_is_nil (cv : Svgo) (b : Board) (scale : Z) :
  b ≠ [] →
  (∃ img, Svg cv b scale = Some (img, None)) ∧
  ∀ (r : GameRender) (σ : gmap chan_id Chan) (t : list Effect),
    ∃ e, engine_iter cv r (mkEngine b σ t) = Some e ∧
      printlns (e_trace e) = printlns t ∧ e_board e ≠ [].
Proof.
  intros Hb. split; [by apply Svg_total |].
  intros r σ t. unfold engine_iter. simpl.
  destruct (decide (size (gameChs r) = 0%nat)) as [Hidle | Hbusy].
  { eexists. split; [done |]. simpl. rewrite printlns_app. simpl.
    split; [lia | done]. }
  destruct (Evolute_rows b) as (nb & -> & Hlen).
  assert (Hnb : nb ≠ []).
  { intros Hnil. rewrite Hnil in Hlen. destruct b; [done | discriminate]. }
  destruct (Svg_total cv nb 10 Hnb) as [img ->].
  destruct (publish (gameChs r) (mkImageBundle img svg_content_type) σ)
    as [σ' outs].
  eexists. split; [done |]. simpl. split; [| done].
  rewrite printlns_app. simpl. rewrite printlns_app, printlns_selects.
  simpl. lia.
Qed.

Lemma Svg_error_is_nil_witness :
  (∃ img, Svg sample_svgo glider 10 = Some (img, None)) ∧
  ∀ (r : GameRender) (σ : gmap chan_id Chan) (t : list Effect),
    ∃ e, engine_iter sample_svgo r (mkEngine glider σ t) = Some e ∧
      printlns (e_trace e) = printlns t ∧ e_board e ≠ [].
Proof. apply (Svg_error_is_nil sample_svgo glider 10). discriminate. Defined.

(** C10 as stated fails on the board with no rows: [b[0]] panics, so
    [Svg] returns nothing at all. *)
Lemma Svg_empty_board_panics :
  ¬ (∀ (b : Board) (scale : Z), ∃ img, Svg sample_svgo b scale = Some (img, None)).
Proof. intros Hall. destruct (Hall [] 10) as [img Himg]. discriminate. Qed.

Lemma newboard_cell_inv (rnd : nat → Z) (w h i j : nat) (s : Board * nat) :
  (i < w)%nat → (j < h)%nat → newboard_inv w h (S i) s →
  ∃ s', newboard_cell rnd i j s = Some s' ∧ newboard_inv w h (S i) s'.
Proof.
  intros Hi Hj [Hlen Hrows]. destruct s as [b n]. simpl in *.
  destruct (Z.rem (rnd n) 5 =? 0); [| by eexists].
  destruct (Hrows i ltac:(lia)) as (row & Hrow & Hlrow).
  unfold set_cell. rewrite Hrow, decide_True by lia.
  eexists. split; [done |]. split; simpl.
  - by rewrite length_insert.
  - intros i' Hi'. destruct (decide (i' = i)) as [-> | Hne].
    + exists (<[j := true]> row).
      rewrite list_lookup_insert_eq by lia. by rewrite length_insert.
    + rewrite list_lookup_insert_ne by done. by apply Hrows.
Qed.

Lemma newboard_row_inv (rnd : nat → Z) (w i : nat) (h : Z) (s : Board * nat) :
  make_ok 1 h = true → (i < w)%nat → newboard_inv w (Z.to_nat h) i s →
  ∃ s', newboard_row rnd h i s = Some s' ∧ newboard_inv w (Z.to_nat h) (S i) s'.
Proof.
  intros Hh Hi [Hlen Hrows]. destruct s as [b n]. simpl in *.
  rewrite Hh. cbn [negb].
  unfold set_row. rewrite decide_True by lia.
  destruct (for_range_inv (fun _ => newboard_inv w (Z.to_nat h) (S i))
              (newboard_cell rnd i) (Z.to_nat h) 0
              (<[i := replicate (Z.to_nat h) false]> b, n))
    as (s' & Hrun & Hs').
  - split; simpl; [by rewrite length_insert |].
    intros i' Hi'. destruct (decide (i' = i)) as [-> | Hne].
    + exists (replicate (Z.to_nat h) false).
      rewrite list_lookup_insert_eq by lia. by rewrite length_replicate.
    + rewrite list_lookup_insert_ne by done. apply Hrows. lia.
  - intros j t Hj Ht. apply newboard_cell_inv; [done | lia | done].
  - by exists s'.
Qed.

(** [NewBoard(w, h)] returns a board of [w] rows of [h] cells. *)
Lemma NewBoard_shape (rnd : nat → Z) (w h : Z) (n : nat) :
  make_ok 24 w = true → make_ok 1 h = true →
  ∃ b n', NewBoard rnd w h n = Some (b, n') ∧
    length b = Z.to_nat w ∧ Forall (fun row => length row = Z.to_nat h) b.
Proof.
  intros Hw Hh. unfold NewBoard. rewrite Hw. cbn [negb].
  destruct (for_range_inv (newboard_inv (Z.to_nat w) (Z.to_nat h))
              (newboard_row rnd h) (Z.to_nat w) 0
              (replicate (Z.to_nat w) [], n)) as ([b n'] & Hrun & Hlen & Hrows).
  - split; simpl; [by rewrite length_replicate |]. intros i Hi. lia.
  - intros i t Hi Ht. apply newboard_row_inv; [done | lia | done].
  - exists b, n'. split; [done |]. split; [done |].
    apply Forall_lookup. intros i row Hrow. simpl in *.
    destruct (Hrows i) as (row' & Hrow' & Hl).
    + apply lookup_lt_Some in Hrow. lia.
    + congruence.
Qed.

(** ** The engine with nobody watching *)

Lemma engine_iter_idle (cv : Svgo) (r : GameRender) (e : Engine) :
  gameChs r = ∅ →
  engine_iter cv r e =
  Some (mkEngine (e_board e) (e_sinks e) (e_trace e ++ [EffSleep 100])).
Proof.
  intros Hr. unfold engine_iter. rewrite Hr, size_empty.
  by rewrite decide_True.
Qed.

Lemma engine_loop_idle (cv : Svgo) (n : nat) (r : GameRender) (e : Engine) :
  gameChs r = ∅ →
  engine_loop cv n r e =
  Some (mkEngine (e_board e) (e_sinks e)
          (e_trace e ++ replicate n (EffSleep 100))).
Proof.
  intros Hr. revert e. induction n as [| n IH]; intros e; simpl.
  - rewrite app_nil_r. by destruct e.
  - rewrite engine_iter_idle by done. rewrite IH. simpl.
    by rewrite <- app_assoc.
Qed.

Lemma idle_trace (n : nat) :
  evolutions (replicate n (EffSleep 100)) = 0%nat ∧
  selects (replicate n (EffSleep 100)) = 0%nat.
Proof. induction n as [| n [IH1 IH2]]; simpl; done. Qed.

(** C5. While no sink is registered, a turn of the engine loop only
    sleeps 100 ms: the board and the sinks are what they were, [Evolute]
    is not called and no [select] of a publish runs. In particular the
    engine started with no sink has, after any number [n] of turns, the
    board [NewBoard] gave it and a trace of [n] sleeps. *)
Theorem engine_idle_without_sinks (cv : Svgo) (rnd : nat → Z)
    (r : GameRender) (e : Engine) (n : nat) :
  gameChs r = ∅ →
  engine_iter cv r e =
    Some (mkEngine (e_board e) (e_sinks e) (e_trace e ++ [EffSleep 100])) ∧
  (∃ e', engine_loop cv n r e = Some e' ∧
     e_board e' = e_board e ∧ e_sinks e' = e_sinks e ∧
     evolutions (e_trace e') = evolutions (e_trace e) ∧
     selects (e_trace e') = selects (e_trace e)) ∧
  (∃ e0 e', engine_start rnd (e_sinks e) = Some e0 ∧
     engine_loop cv n r e0 = Some e' ∧
     e_board e' = e_board e0 ∧
     e_trace e' = replicate n (EffSleep 100) ∧
     evolutions (e_trace e') = 0%nat).
Proof.
  intros Hr. split; [by apply engine_iter_idle |]. split.
  - eexists. split; [by apply engine_loop_idle |]. simpl.
    rewrite evolutions_app, selects_app.
    destruct (idle_trace n) as [-> ->]. repeat split; lia.
  - destruct (NewBoard_shape rnd 80 60 0) as (b & n' & Hnew & _);
      [reflexivity | reflexivity |].
    unfold engine_start. rewrite Hnew.
    eexists. eexists. split; [done |].
    split; [by apply engine_loop_idle |]. simpl.
    split; [done |]. split; [done |]. apply idle_trace.
Qed.

(** C5 on the scenario of the description: five idle turns. *)
Lemma engine_idle_without_sinks_witness :
  gameChs (mkGameRender ∅) = ∅ ∧
  ∃ e0 e', engine_start (fun _ => 0) ∅ = Some e0 ∧
    engine_loop sample_svgo 5 (mkGameRender ∅) e0 = Some e' ∧
    e_board e' = e_board e0 ∧
    e_trace e' = replicate 5 (EffSleep 100) ∧
    evolutions (e_trace e') = 0%nat.
Proof.
  split; [reflexivity |].
  destruct (engine_idle_without_sinks sample_svgo (fun _ => 0)
              (mkGameRender ∅) (mkEngine glider ∅ []) 5) as (_ & _ & Hstart).
  - reflexivity.
  - exact Hstart.
Defined.

(** ** Membership of the two hubs *)

Lemma GameRender_register_members (c : chan_id) (r : GameRender) :
  gameChs (fst (GameRender_Register c r)) = {[c]} ∪ gameChs r.
Proof. done. Qed.

Lemma GameRender_unregister_members (c : chan_id) (r0 r : GameRender) :
  gameChs (snd (GameRender_Register c r0) r) = gameChs r ∖ {[c]}.
Proof. done. Qed.

Lemma ViewersRender_register_members (cv : Svgo) (c : chan_id)
    (vw : ViewersWorld) :
  viewers (fst (ViewersRender_Register cv c vw)) = {[c]} ∪ viewers vw.
Proof. done. Qed.

Lemma ViewersRender_unregister_members (cv : Svgo) (c : chan_id)
    (vw0 vw : ViewersWorld) :
  viewers (snd (ViewersRender_Register cv c vw0) vw) = viewers vw ∖ {[c]}.
Proof. done. Qed.

Lemma iter_remove (c : chan_id) (n : nat) {H : Type} (mem : H → gset chan_id)
    (unreg : H → H) (h : H) :
  (∀ x, mem (unreg x) = mem x ∖ {[c]}) →
  mem (Nat.iter (S n) unreg h) = mem h ∖ {[c]}.
Proof.
  intros Hun. induction n as [| n IH].
  - apply Hun.
  - change (Nat.iter (S (S n)) unreg h) with (unreg (Nat.iter (S n) unreg h)).
    rewrite Hun, IH. set_solver.
Qed.

(** C6. For both hubs, the closure returned by [Register] invoked any
    number of times (at least once) leaves the membership it leaves when
    invoked once: the membership without the sink. *)
Theorem unregister_idempotent (cv : Svgo) (c : chan_id) (n : nat)
    (r0 r : GameRender) (vw0 vw : ViewersWorld) :
  let unregister_game := snd (Register GameRender_Render c r0) in
  let unregister_viewers := snd (Register (ViewersRender_Render cv) c vw0) in
  members GameRender_Render (Nat.iter (S n) unregister_game r) =
    members GameRender_Render (unregister_game r) ∧
  members GameRender_Render (unregister_game r) =
    members GameRender_Render r ∖ {[c]} ∧
  members (ViewersRender_Render cv) (Nat.iter (S n) unregister_viewers vw) =
    members (ViewersRender_Render cv) (unregister_viewers vw) ∧
  members (ViewersRender_Render cv) (unregister_viewers vw) =
    members (ViewersRender_Render cv) vw ∖ {[c]}.
Proof.
  intros ung unv.
  split; [| split; [done | split; [| done]]].
  - rewrite (iter_remove c n (members GameRender_Render) ung r); [done |].
    intros x. apply GameRender_unregister_members.
  - rewrite (iter_remove c n (members (ViewersRender_Render cv)) unv vw);
      [done |].
    intros x. apply ViewersRender_unregister_members.
Qed.

(** C7. For both hubs and a sink that is not a member, [Register]
    followed at once by the returned closure gives back the membership
    set, and so the member count, there was before. *)
Theorem register_then_unregister (cv : Svgo) (c : chan_id)
    (r : GameRender) (vw : ViewersWorld) :
  c ∉ members GameRender_Render r →
  c ∉ members (ViewersRender_Render cv) vw →
  (c ∈ members GameRender_Render (fst (Register GameRender_Render c r)) ∧
   members GameRender_Render
     (snd (Register GameRender_Render c r) (fst (Register GameRender_Render c r)))
   = members GameRender_Render r ∧
   size (members GameRender_Render
     (snd (Register GameRender_Render c r) (fst (Register GameRender_Render c r))))
   = size (members GameRender_Render r)) ∧
  (c ∈ members (ViewersRender_Render cv)
         (fst (Register (ViewersRender_Render cv) c vw)) ∧
   members (ViewersRender_Render cv)
     (snd (Register (ViewersRender_Render cv) c vw)
        (fst (Register (ViewersRender_Render cv) c vw)))
   = members (ViewersRender_Render cv) vw ∧
   size (members (ViewersRender_Render cv)
     (snd (Register (ViewersRender_Render cv) c vw)
        (fst (Register (ViewersRender_Render cv) c vw))))
   = size (members (ViewersRender_Render cv) vw)).
Proof.
  simpl. intros Hr Hvw.
  assert (Hg : ({[c]} ∪ gameChs r) ∖ {[c]} = gameChs r) by set_solver.
  assert (Hv : ({[c]} ∪ viewers vw) ∖ {[c]} = viewers vw) by set_solver.
  rewrite Hg, Hv. repeat split; set_solver.
Qed.

Lemma register_then_unregister_witness :
  (7%nat ∉ members GameRender_Render sample_game) ∧
  (7%nat ∉ members (ViewersRender_Render sample_svgo) sample_viewers) ∧
  members GameRender_Render
    (snd (Register GameRender_Render 7%nat sample_game)
       (fst (Register GameRender_Render 7%nat sample_game)))
  = members GameRender_Render sample_game ∧
  members (ViewersRender_Render sample_svgo)
    (snd (Register (ViewersRender_Render sample_svgo) 7%nat sample_viewers)
       (fst (Register (ViewersRender_Render sample_svgo) 7%nat sample_viewers)))
  = members (ViewersRender_Render sample_svgo) sample_viewers.
Proof.
  assert (Hg : 7%nat ∉ members GameRender_Render sample_game)
    by (apply (bool_decide_unpack _); vm_compute; exact I).
  assert (Hv : 7%nat ∉ members (ViewersRender_Render sample_svgo) sample_viewers)
    by (apply (bool_decide_unpack _); vm_compute; exact I).
  split; [exact Hg |]. split; [exact Hv |].
  destruct (register_then_unregister sample_svgo 7%nat sample_game
              sample_viewers Hg Hv) as [(_ & Hg' & _) (_ & Hv' & _)].
  split; [exact Hg' | exact Hv'].
Defined.

(** ** Decimal numbers *)





Lemma append_assoc (a b c : string) : (a +:+ b) +:+ c = a +:+ (b +:+ c).
Proof.
  induction a as [| x a' IH]; [done |].
  change (String x ((a' +:+ b) +:+ c) = String x (a' +:+ (b +:+ c))).
  by rewrite IH.
Qed.

(** ** The stream session *)


Lemma Write_submitted (p : string) (w : ResponseWriter) :
  submitted (fst (Write p w)) = submitted w ++ [p].
Proof. unfold Write. by destruct (plan w) as [| [| k err] rest]. Qed.

Lemma write_frame_writer (data : ImageBundle) (w : ResponseWriter)
    (printed : list string) :
  fst (write_frame data w printed) =
  flush (fst (Write (Data data)
           (fst (Write (part_content_length data)
              (fst (Write (part_content_type data)
                 (fst (Write part_boundary w)))))))).
Proof.
  unfold write_frame.
  destruct (Write part_boundary w) as [w1 e1]. simpl.
  destruct (Write (part_content_type data) w1) as [w2 e2]. simpl.
  destruct (Write (part_content_length data) w2) as [w3 e3]. simpl.
  by destruct (Write (Data data) w3) as [w4 e4].
Qed.




Lemma session_step_frame {H : Type} (data : ImageBundle) (hub : H)
    (s : Session H) :
  s_state s = Streaming →
  fst (session_step (Frame data) (hub, s)) = hub ∧
  s_state (snd (session_step (Frame data) (hub, s))) = Streaming ∧
  s_unregistered (snd (session_step (Frame data) (hub, s))) = s_unregistered s ∧
  s_unregister (snd (session_step (Frame data) (hub, s))) = s_unregister s.
Proof.
  intros Hs. unfold session_step. rewrite Hs.
  by destruct (write_frame data (s_writer s) (s_printed s)).
Qed.

Lemma session_run_frames {H : Type} (frames : list ImageBundle) (hub : H)
    (s : Session H) :
  s_state s = Streaming →
  fst (session_run (map Frame frames) (hub, s)) = hub ∧
  s_state (snd (session_run (map Frame frames) (hub, s))) = Streaming ∧
  s_unregistered (snd (session_run (map Frame frames) (hub, s)))
    = s_unregistered s ∧
  s_unregister (snd (session_run (map Frame frames) (hub, s))) = s_unregister s.
Proof.
  revert s. induction frames as [| f frames IH]; intros s Hs; [done |].
  destruct (session_step_frame f hub s Hs) as (Hh & Hst & Hn & Hu).
  unfold session_run. cbn [map fold_left].
  destruct (session_step (Frame f) (hub, s)) as [hub' s'] eqn:Hstep.
  simpl in Hh, Hst, Hn, Hu. subst hub'.
  destruct (IH s' Hst) as (IH1 & IH2 & IH3 & IH4).
  unfold session_run in *. rewrite IH1, IH2, IH3, IH4. done.
Qed.

Lemma session_run_closed {H : Type} (evs : list SessionEvent) (hub : H)
    (s : Session H) :
  s_state s = Closed → session_run evs (hub, s) = (hub, s).
Proof.
  intros Hs. induction evs as [| ev evs IH]; [done |].
  unfold session_run in *. cbn [fold_left].
  unfold session_step at 2. by rewrite Hs.
Qed.

Lemma session_run_cons {H : Type} (ev : SessionEvent)
    (evs : list SessionEvent) (hs : H * Session H) :
  session_run (ev :: evs) hs = session_run evs (session_step ev hs).
Proof. done. Qed.

Lemma session_step_done {H : Type} (hub : H) (s : Session H) :
  s_state s = Streaming →
  session_step CtxDone (hub, s) =
  (s_unregister s hub,
   mkSession Closed (s_chan s) (header_set "Connection" "close" (s_writer s))
     (s_printed s) (s_unregister s) (S (s_unregistered s))).
Proof. intros Hs. unfold session_step. by rewrite Hs. Qed.

Lemma session_run_app {H : Type} (evs evs' : list SessionEvent)
    (hs : H * Session H) :
  session_run (evs ++ evs') hs = session_run evs' (session_run evs hs).
Proof. unfold session_run. apply fold_left_app. Qed.

(** The way out of [Streaming]: whatever the connection does with the
    writes, a session that receives frames stays in [Streaming] and
    registered; it moves to [Closed] when its context is done, and then
    its deferred [unregister] runs once, whatever comes after;
    [unregister] removes that session's sink from the hub and no
    other. *)
Theorem session_closes_on_done_only {H : Type} (R : Render H) (cv : Svgo)
    (hub0 : H) (ch : chan_id) (w : ResponseWriter)
    (frames : list ImageBundle) (evs : list SessionEvent)
    (r0 r : GameRender) (vw0 vw : ViewersWorld) :
  (s_state (snd (session_run (map Frame frames) (session_open R ch w hub0)))
     = Streaming ∧
   fst (session_run (map Frame frames) (session_open R ch w hub0))
     = fst (Register R ch hub0) ∧
   s_unregistered
     (snd (session_run (map Frame frames) (session_open R ch w hub0))) = 0%nat) ∧
  (s_state (snd (session_run (map Frame frames ++ CtxDone :: evs)
                   (session_open R ch w hub0))) = Closed ∧
   fst (session_run (map Frame frames ++ CtxDone :: evs)
          (session_open R ch w hub0))
     = snd (Register R ch hub0) (fst (Register R ch hub0)) ∧
   s_unregistered
     (snd (session_run (map Frame frames ++ CtxDone :: evs)
             (session_open R ch w hub0))) = 1%nat) ∧
  members GameRender_Render (snd (Register GameRender_Render ch r0) r)
    = members GameRender_Render r ∖ {[ch]} ∧
  members (ViewersRender_Render cv)
    (snd (Register (ViewersRender_Render cv) ch vw0) vw)
    = members (ViewersRender_Render cv) vw ∖ {[ch]}.
Proof.
  split; [| split; [| done]].
  - unfold session_open. destruct (Register R ch hub0) as [hub1 unreg].
    match goal with
    | |- context [session_run _ (hub1, ?s0)] =>
        destruct (session_run_frames frames hub1 s0 eq_refl)
          as (Hh & Hst & Hn & _)
    end.
    done.
  - rewrite session_run_app. unfold session_open.
    destruct (Register R ch hub0) as [hub1 unreg].
    match goal with
    | |- context [session_run (map Frame frames) (hub1, ?s0)] =>
        destruct (session_run_frames frames hub1 s0 eq_refl)
          as (Hh & Hst & Hn & Hu);
        destruct (session_run (map Frame frames) (hub1, s0)) as [hub2 s2]
    end.
    simpl in Hh, Hst, Hn, Hu. subst hub2.
    rewrite session_run_cons, (session_step_done hub1 s2 Hst).
    rewrite session_run_closed by done. simpl. by rewrite Hu, Hn.
Qed.

(** C3. The handler does not end the session on a write failure: after
    a frame all four of whose writes failed, the session of sink 7 is
    still in [Streaming], its deferred [unregister] has not run and its
    sink is still registered; the error of the last write has been
    printed. The other case of the same [select], [<-r.Context().Done()],
    does return and deregister. *)
Lemma write_failure_keeps_streaming :
  s_state (snd after_failed_frame) = Streaming ∧
  s_state (snd after_failed_frame) ≠ Closed ∧
  s_unregistered (snd after_failed_frame) = 0%nat ∧
  7%nat ∈ gameChs (fst after_failed_frame) ∧
  s_printed (snd after_failed_frame) = ["broken pipe"].
Proof.
  split; [reflexivity |]. split; [discriminate |]. split; [reflexivity |].
  split; [| reflexivity].
  apply (bool_decide_unpack _). vm_compute. exact I.
Qed.

(** ** Goroutines and the membership map *)

Lemma goroutine_eqb_eq (g h : goroutine) : goroutine_eqb g h = true ↔ g = h.
Proof.
  destruct g as [| | n], h as [| | k]; simpl; split; try done.
  - intros Hnk. apply Nat.eqb_eq in Hnk. by subst.
  - intros [= ->]. apply Nat.eqb_refl.
Qed.

Lemma project_by_same (g : goroutine) (sts : list MapStep) :
  project g (by_goroutine g sts) = sts.
Proof.
  induction sts as [| st sts IH]; simpl; [done |].
  rewrite (proj2 (goroutine_eqb_eq g g)) by done. by rewrite IH.
Qed.

Lemma project_by_other (g h : goroutine) (sts : list MapStep) :
  g ≠ h → project g (by_goroutine h sts) = [].
Proof.
  intros Hne. induction sts as [| st sts IH]; simpl; [done |].
  destruct (goroutine_eqb g h) eqn:Heq; [| done].
  by apply goroutine_eqb_eq in Heq.
Qed.

Lemma project_app (g : goroutine) (l l' : list (goroutine * MapStep)) :
  project g (l ++ l') = project g l ++ project g l'.
Proof.
  induction l as [| [h st] l IH]; simpl; [done |].
  destruct (goroutine_eqb g h); simpl; by rewrite IH.
Qed.

(** Steps that are all made by one goroutine can only run in its program
    order. *)
Lemma schedule_of_one (g : goroutine) (sched : list (goroutine * MapStep)) :
  (∀ h, h ≠ g → project h sched = []) →
  map snd sched = project g sched.
Proof.
  intros Hother. induction sched as [| [h st] sched IH]; [done |].
  assert (Hdec : h = g ∨ h ≠ g).
  { destruct (goroutine_eqb h g) eqn:Hhg.
    - left. by apply goroutine_eqb_eq.
    - right. intros ->. by rewrite (proj2 (goroutine_eqb_eq g g)) in Hhg. }
  destruct Hdec as [-> | Hne].
  - simpl. rewrite (proj2 (goroutine_eqb_eq g g)) by done. f_equal.
    apply IH. intros h Hh. specialize (Hother h Hh). simpl in Hother.
    destruct (goroutine_eqb h g) eqn:Heq; [| done].
    by apply goroutine_eqb_eq in Heq.
  - specialize (Hother h Hne). simpl in Hother.
    by rewrite (proj2 (goroutine_eqb_eq h h)) in Hother.
Qed.

Lemma map_run_app (a b : list MapStep) (m : GoMap) :
  map_run (a ++ b) m =
  match map_run a m with
  | Some m' => map_run b m'
  | None => None
  end.
Proof.
  revert m. induction a as [| st a IH]; intros m; simpl; [done |].
  destruct (map_step st m); [apply IH | done].
Qed.

Lemma map_run_range (n : nat) (vs : gset chan_id) :
  map_run (range_steps n) (mkGoMap vs false) = Some (mkGoMap vs false).
Proof.
  unfold range_steps. induction (S n) as [| k IH]; simpl; done.
Qed.

Lemma owner_steps_tag (g : goroutine) (evs : list ViewerEvent)
    (vs : gset chan_id) :
  g ≠ GOwner → project g (ViewersRender_owner_steps evs vs) = [].
Proof.
  intros Hne. revert vs. induction evs as [| ev evs IH]; intros vs; [done |].
  simpl. destruct ev; rewrite project_app, IH, project_by_other; done.
Qed.

Lemma owner_steps_run (evs : list ViewerEvent) (vs : gset chan_id) :
  ∃ vs', map_run (project GOwner (ViewersRender_owner_steps evs vs))
           (mkGoMap vs false) = Some (mkGoMap vs' false).
Proof.
  revert vs. induction evs as [| ev evs IH]; intros vs; [by exists vs |].
  simpl. destruct ev as [c | c |].
  - destruct (IH ({[c]} ∪ vs)) as [vs' Hrun]. exists vs'.
    rewrite project_app, project_by_same, map_run_app. cbn -[range_steps].
    by rewrite map_run_range.
  - destruct (IH (vs ∖ {[c]})) as [vs' Hrun]. exists vs'.
    rewrite project_app, project_by_same, map_run_app. cbn -[range_steps].
    by rewrite map_run_range.
  - destruct (IH vs) as [vs' Hrun]. exists vs'.
    rewrite project_app, project_by_same, map_run_app. cbn -[range_steps].
    by rewrite map_run_range.
Qed.

Lemma call_steps_none (calls : list (goroutine * ViewerEvent)) :
  flat_map (fun c => ViewersRender_call_steps (fst c) (snd c)) calls = [].
Proof. induction calls as [| c calls IH]; [done | exact IH]. Qed.

(** [ViewersRender] keeps its map in one goroutine: whatever the callers
    and however their calls are scheduled, no step finds the map in the
    middle of a write. *)
Lemma ViewersRender_map_confined (calls : list (goroutine * ViewerEvent))
    (vs : gset chan_id) (sched : list (goroutine * MapStep)) :
  is_schedule
    (flat_map (fun c => ViewersRender_call_steps (fst c) (snd c)) calls
       ++ ViewersRender_owner_steps (map snd calls) vs) sched →
  ∃ vs', map_run (map snd sched) (mkGoMap vs false) = Some (mkGoMap vs' false).
Proof.
  intros Hsched.
  rewrite call_steps_none in Hsched. simpl in Hsched.
  rewrite (schedule_of_one GOwner).
  - rewrite (Hsched GOwner). apply owner_steps_run.
  - intros h Hh. rewrite (Hsched h). by apply owner_steps_tag.
Qed.

(** C4 fails for [GameRender]: a handler goroutine that registers sink 7
    while the engine goroutine ranges over the map of sinks 1 and 2 can be
    scheduled so that the engine advances its iteration between the start
    and the end of the handler's write; the run-time stops the process. *)
Theorem GameRender_register_races_with_publish :
  ∃ sched,
    is_schedule
      (GameRender_register_steps (GHandler 0) 7%nat
         ++ GameRender_turn_steps (gameChs sample_game)) sched ∧
    map_run (map snd sched) (mkGoMap (gameChs sample_game) false) = None.
Proof.
  exists [ (GEngine, StLen); (GEngine, StIterNext);
           (GHandler 0, StWriteBegin); (GEngine, StIterNext);
           (GEngine, StIterNext); (GHandler 0, StInsert 7%nat) ].
  split; [| reflexivity].
  intros g. destruct g as [| | [| n]]; reflexivity.
Qed.

(** The closure returned by [Register] writes the map in the handler
    goroutine as well, with the same outcome. *)
Lemma GameRender_unregister_races_with_publish :
  ∃ sched,
    is_schedule
      (GameRender_unregister_steps (GHandler 0) 1%nat
         ++ GameRender_turn_steps (gameChs sample_game)) sched ∧
    map_run (map snd sched) (mkGoMap (gameChs sample_game) false) = None.
Proof.
  exists [ (GEngine, StLen); (GHandler 0, StWriteBegin);
           (GEngine, StIterNext); (GEngine, StIterNext);
           (GEngine, StIterNext); (GHandler 0, StDelete 1%nat) ].
  split; [| reflexivity].
  intros g. destruct g as [| | [| n]]; reflexivity.
Qed.

(** ** Worked examples *)

Example Evolute_glider :
  Evolute glider =
  Some [ [false; false; false; false];
         [true;  false; true;  false];
         [false; true;  true;  false];
         [false; true;  false; false] ].
Proof. vm_compute. reflexivity. Qed.

(** Rows of different lengths: a missing cell is a dead neighbour. *)
Example Evolute_ragged :
  Evolute [ [true; true]; [true]; [] ] = Some [ [true; true]; [true]; [] ].
Proof. vm_compute. reflexivity. Qed.

Example Get_off_board :
  Get glider (-1) 0 = false ∧ Get glider 0 4 = false ∧ Get glider 4 0 = false.
Proof. repeat split; reflexivity. Qed.

Example Itoa_examples :
  Itoa 0 = "0" ∧ Itoa 4800 = "4800" ∧ Itoa (-17) = "-17".
Proof. repeat split; reflexivity. Qed.

Example numberSvg_two :
  numberSvg sample_svgo 2 = "<svg 14 14><text>2</text></svg>".
Proof. reflexivity. Qed.

(** A sink that has been handed a frame takes the next one only after its
    session has finished the first and parked again. *)
Example sink_alternates (f g : ImageBundle) :
  deliver g (deliver f (mkChan true [])) = mkChan false [f] ∧
  deliver g (park (consume (deliver f (mkChan true [])))) = mkChan false [g].
Proof. split; reflexivity. Qed.

(** * Further properties of the code *)

(** ** Loops that only append to a buffer *)

Lemma append_empty_r (s : string) : s +:+ EmptyString = s.
Proof.
  induction s as [| c s IH]; [done |].
  change (String c (s +:+ EmptyString) = String c s). by rewrite IH.
Qed.

Lemma join_app (l l' : list string) : join (l ++ l') = join l +:+ join l'.
Proof.
  induction l as [| x l IH]; [done |].
  change (x +:+ join (l ++ l') = (x +:+ join l) +:+ join l').
  by rewrite IH, append_assoc.
Qed.

(** A loop whose body appends [g k] to the buffer appends the texts
    [g lo], ..., [g (lo + n - 1)] in this order. *)
Lemma for_range_append (g : nat → string) (body : nat → string → option string)
    (n lo : nat) (s : string) :
  (∀ k t, (lo ≤ k < lo + n)%nat → body k t = Some (t +:+ g k)) →
  for_range lo n body s = Some (s +:+ join (map g (seq lo n))).
Proof.
  revert lo s. induction n as [| n IH]; intros lo s Hbody.
  - simpl. by rewrite append_empty_r.
  - cbn [for_range seq map]. rewrite Hbody by lia. rewrite IH.
    + change (join (g lo :: map g (seq (S lo) n)))
        with (g lo +:+ join (map g (seq (S lo) n))).
      by rewrite append_assoc.
    + intros k t Hk. apply Hbody. lia.
Qed.

Lemma map_seq_lookup {A B : Type} (f : A → B) (g : nat → B) (l : list A) :
  (∀ j x, l !! j = Some x → g j = f x) →
  map g (seq 0 (length l)) = map f l.
Proof.
  intros Hg. apply list_eq. intros j.
  rewrite !list_lookup_fmap.
  destruct (l !! j) as [x |] eqn:Hx; simpl.
  - rewrite lookup_seq_lt by (by eapply lookup_lt_Some). simpl.
    f_equal. by apply Hg.
  - apply lookup_ge_None in Hx. by rewrite lookup_seq_ge.
Qed.

(** ** Board.String *)

Lemma Get_lookup (b : Board) (i j : nat) (row : list bool) (v : bool) :
  b !! i = Some row → row !! j = Some v → Get b (Z.of_nat i) (Z.of_nat j) = v.
Proof. intros Hrow Hv. rewrite Get_alive. by eapply alive_lookup. Qed.

Lemma string_row_text (b : Board) (i : nat) (row : list bool) (s : string) :
  b !! i = Some row → string_row b i s = Some (s +:+ row_text row).
Proof.
  intros Hrow. unfold string_row. rewrite Hrow.
  rewrite (for_range_append
             (fun j => cell_text (Get b (Z.of_nat i) (Z.of_nat j)))).
  - unfold row_text. rewrite append_assoc.
    rewrite (map_seq_lookup cell_text _ row); [done |].
    intros j v Hv. by rewrite (Get_lookup b i j row v).
  - intros j t _. unfold string_cell, cell_text.
    by destruct (Get b (Z.of_nat i) (Z.of_nat j)).
Qed.

Lemma Board_String_text (b : Board) :
  Board_String b = Some (join (map row_text b)).
Proof.
  unfold Board_String.
  rewrite (for_range_append (fun i => row_text (default [] (b !! i)))).
  - rewrite (map_seq_lookup row_text _ b); [done |].
    intros i row Hrow. by rewrite Hrow.
  - intros i t Hi.
    destruct (lookup_lt_is_Some_2 b i ltac:(lia)) as [row Hrow].
    rewrite Hrow. by apply string_row_text.
Qed.

Lemma parse_board_cells (row acc : list bool) (rest : string) :
  parse_board (join (map cell_text row) +:+ rest) acc =
  parse_board rest (rev row ++ acc).
Proof.
  revert acc. induction row as [| v row IH]; intros acc; [done |].
  change (join (map cell_text (v :: row)) +:+ rest)
    with ((cell_text v +:+ join (map cell_text row)) +:+ rest).
  rewrite append_assoc. simpl rev. rewrite <- app_assoc. simpl app.
  rewrite <- IH. by destruct v.
Qed.

Lemma parse_board_row (row : list bool) (rest : string) :
  parse_board (row_text row +:+ rest) [] = row :: parse_board rest [].
Proof.
  unfold row_text. rewrite append_assoc, parse_board_cells, app_nil_r.
  change (newline +:+ rest) with (String lf rest). cbn [parse_board].
  change (Ascii.eqb lf lf) with true. cbn iota. by rewrite rev_involutive.
Qed.

(** X1. [Board.String] never panics, and its text reads back as the
    board it was made from: one line per row, ["o"] for a live cell and
    ["*"] for a dead one. *)
Theorem Board_String_round_trip (b : Board) :
  ∃ s, Board_String b = Some s ∧ parse_board s [] = b.
Proof.
  exists (join (map row_text b)). split; [apply Board_String_text |].
  induction b as [| row b IH]; [done |].
  change (join (map row_text (row :: b)))
    with (row_text row +:+ join (map row_text b)).
  by rewrite parse_board_row, IH.
Qed.

Lemma length_append (s t : string) :
  String.length (s +:+ t) = (String.length s + String.length t)%nat.
Proof.
  induction s as [| c s IH]; [done |].
  change (S (String.length (s +:+ t)) = S (String.length s + String.length t)).
  by rewrite IH.
Qed.

Lemma length_row_text (row : list bool) :
  String.length (row_text row) = S (length row).
Proof.
  unfold row_text. rewrite length_append.
  change (String.length newline) with 1%nat.
  induction row as [| v row IH]; [done |].
  change (join (map cell_text (v :: row)))
    with (cell_text v +:+ join (map cell_text row)).
  rewrite length_append. simpl length.
  replace (String.length (cell_text v)) with 1%nat by (by destruct v). lia.
Qed.

(** X2. The text of a board has one byte per cell and one per row. *)
Theorem Board_String_length (b : Board) :
  ∃ s, Board_String b = Some s ∧
    String.length s = (length (concat b) + length b)%nat.
Proof.
  exists (join (map row_text b)). split; [apply Board_String_text |].
  induction b as [| row b IH]; [done |].
  change (join (map row_text (row :: b)))
    with (row_text row +:+ join (map row_text b)).
  rewrite length_append, length_row_text, IH. simpl concat.
  rewrite length_app. simpl length. lia.
Qed.

(** ** Board.Svg *)

Lemma join_live_in_row (cv : Svgo) (k : Z) (i lo : nat) (row : list bool)
    (g : nat → string) :
  (∀ (j : nat) (v : bool), row !! j = Some v →
     g (lo + j)%nat = if v then rect_at cv k (i, (lo + j)%nat) else EmptyString) →
  join (map g (seq lo (length row))) =
  join (map (rect_at cv k) (live_in_row i lo row)).
Proof.
  revert lo. induction row as [| v row IH]; intros lo Hg; [done |].
  cbn [length seq map live_in_row].
  change (join (g lo :: map g (seq (S lo) (length row))))
    with (g lo +:+ join (map g (seq (S lo) (length row)))).
  rewrite (IH (S lo)).
  - pose proof (Hg 0%nat v eq_refl) as H0. rewrite Nat.add_0_r in H0.
    rewrite H0. by destruct v.
  - intros j x Hx. replace (S lo + j)%nat with (lo + S j)%nat by lia.
    by apply (Hg (S j)).
Qed.

Lemma svg_row_text (cv : Svgo) (b : Board) (k : Z) (i : nat) (row : list bool)
    (buf : string) :
  b !! i = Some row →
  svg_row cv b k i buf =
  Some (buf +:+ join (map (rect_at cv k) (live_in_row i 0 row))).
Proof.
  intros Hrow. unfold svg_row. rewrite Hrow.
  rewrite (for_range_append
             (fun j => match row !! j with
                       | Some true => rect_at cv k (i, j)
                       | _ => EmptyString
                       end)).
  - rewrite (join_live_in_row cv k i 0 row); [done |].
    intros j v Hv. simpl. by rewrite Hv.
  - intros j t Hj. unfold svg_cell. rewrite Hrow.
    destruct (lookup_lt_is_Some_2 row j ltac:(lia)) as [v Hv].
    rewrite Hv. destruct v; simpl; [done | by rewrite append_empty_r].
Qed.

Lemma join_live_from (cv : Svgo) (k : Z) (lo : nat) (b : Board)
    (g : nat → string) :
  (∀ i row, b !! i = Some row →
     g (lo + i)%nat = join (map (rect_at cv k) (live_in_row (lo + i) 0 row))) →
  join (map g (seq lo (length b))) = join (map (rect_at cv k) (live_from lo b)).
Proof.
  revert lo. induction b as [| row b IH]; intros lo Hg; [done |].
  cbn [length seq map live_from].
  change (join (g lo :: map g (seq (S lo) (length b))))
    with (g lo +:+ join (map g (seq (S lo) (length b)))).
  rewrite map_app, join_app, (IH (S lo)).
  - pose proof (Hg 0%nat row eq_refl) as H0. rewrite Nat.add_0_r in H0.
    by rewrite H0.
  - intros i r Hr. replace (S lo + i)%nat with (lo + S i)%nat by lia.
    by apply (Hg (S i)).
Qed.

(** X3. On a board with at least one row, [Board.Svg] writes the header
    of a canvas [k * len(b)] wide and [k * len(b[0])] high, then one
    [k] by [k] black rectangle at [(i*k, j*k)] for each live cell, in
    row-major order, then the footer; it draws nothing for a dead cell
    and never fails. *)
Theorem Svg_draws_live_cells (cv : Svgo) (row0 : list bool) (rest : Board)
    (k : Z) :
  Svg cv (row0 :: rest) k =
  Some (svg_Start cv (GoInt.mul k (len (row0 :: rest))) (GoInt.mul k (len row0))
        +:+ join (map (rect_at cv k) (live_cells (row0 :: rest)))
        +:+ svg_End cv,
        None).
Proof.
  unfold Svg. cbn [lookup list_lookup].
  rewrite (for_range_append
             (fun i => join (map (rect_at cv k)
                               (live_in_row i 0
                                  (default [] ((row0 :: rest) !! i)))))).
  - rewrite (join_live_from cv k 0 (row0 :: rest)).
    + by rewrite append_assoc.
    + intros i row Hrow. simpl. by rewrite Hrow.
  - intros i t Hi.
    destruct (lookup_lt_is_Some_2 (row0 :: rest) i ltac:(lia)) as [row Hrow].
    rewrite Hrow. by apply svg_row_text.
Qed.

Lemma length_live_in_row (i j : nat) (row : list bool) :
  length (live_in_row i j row) = length (List.filter (fun v : bool => v) row).
Proof.
  revert j. induction row as [| v row IH]; intros j; [done |].
  destruct v; simpl; by rewrite IH.
Qed.

(** The positions [Board.Svg] draws are as many as the board has live
    cells, and each of them holds a live cell. *)
Lemma live_cells_are_live (b : Board) :
  length (live_cells b) = length (List.filter (fun v : bool => v) (concat b)) ∧
  Forall (fun p => alive b (Z.of_nat (fst p)) (Z.of_nat (snd p)) = true)
    (live_cells b).
Proof.
  split.
  - unfold live_cells. generalize 0%nat.
    induction b as [| row b IH]; intros i; [done |].
    simpl. rewrite length_app, List.filter_app, length_app, length_live_in_row.
    by rewrite IH.
  - assert (Hrow : ∀ i j0 row pre r,
      b !! i = Some r → r = pre ++ row → j0 = length pre →
      Forall (fun p => alive b (Z.of_nat (fst p)) (Z.of_nat (snd p)) = true)
        (live_in_row i j0 row)).
    { intros i j0 row. revert j0.
      induction row as [| v row IH]; intros j0 pre r Hr -> ->; [done |].
      assert (Hrest : Forall
        (fun p => alive b (Z.of_nat (fst p)) (Z.of_nat (snd p)) = true)
        (live_in_row i (S (length pre)) row)).
      { apply (IH _ (pre ++ [v]) (pre ++ v :: row)); [done | |].
        - by rewrite <- app_assoc.
        - rewrite length_app. simpl. lia. }
      simpl. destruct v; [| done]. constructor; [| done]. simpl.
      apply (alive_lookup b i (length pre) (pre ++ true :: row)); [done |].
      by rewrite list_lookup_middle. }
    assert (Hfrom : ∀ i0 b' pre,
      b = pre ++ b' → i0 = length pre →
      Forall (fun p => alive b (Z.of_nat (fst p)) (Z.of_nat (snd p)) = true)
        (live_from i0 b')).
    { intros i0 b'. revert i0.
      induction b' as [| row b' IH]; intros i0 pre Hb Hi0; [done |].
      simpl. apply Forall_app. split.
      - apply (Hrow i0 0%nat row [] row); [| done | done].
        subst. by rewrite list_lookup_middle.
      - apply (IH (S i0) (pre ++ [row])).
        + by rewrite <- app_assoc.
        + rewrite length_app. simpl. lia. }
    by apply (Hfrom 0%nat b []).
Qed.

(** ** NewBoard *)

Lemma newboard_cell_cols (rnd : nat → Z) (n w h i j : nat) (s : Board * nat) :
  (i < w)%nat → (j < h)%nat → newboard_cols rnd n w h i j s →
  ∃ s', newboard_cell rnd i j s = Some s' ∧ newboard_cols rnd n w h i (S j) s'.
Proof.
  intros Hi Hj (Hm & Hlen & Hrows & Hrow). destruct s as [b m]. simpl in *.
  assert (Hsplit : replicate (h - j) false = false :: replicate (h - S j) false).
  { replace (h - j)%nat with (S (h - S j)) by lia. done. }
  assert (Hseq : map (drawn_cell rnd n h i) (seq 0 (S j)) =
                 map (drawn_cell rnd n h i) (seq 0 j) ++ [drawn_cell rnd n h i j]).
  { by rewrite seq_S, map_app. }
  assert (Hpre : length (map (drawn_cell rnd n h i) (seq 0 j)) = j).
  { by rewrite length_map, length_seq. }
  unfold newboard_cell, set_cell. rewrite Hrow.
  destruct (Z.rem (rnd m) 5 =? 0) eqn:Hdraw.
  - rewrite decide_True.
    2:{ rewrite length_app, Hpre, length_replicate. lia. }
    eexists. split; [done |]. unfold newboard_cols. cbn [fst snd].
    split; [lia |]. split; [by rewrite length_insert |]. split.
    + intros i' Hi'. rewrite list_lookup_insert_ne by lia. by apply Hrows.
    + rewrite list_lookup_insert_eq by lia. f_equal.
      rewrite Hsplit, Hseq, <- app_assoc. simpl.
      rewrite insert_app_r_alt by lia. rewrite Hpre, Nat.sub_diag. simpl.
      unfold drawn_cell. by rewrite <- Hm, Hdraw.
  - eexists. split; [done |]. unfold newboard_cols. cbn [fst snd].
    split; [lia |]. split; [done |]. split; [done |].
    rewrite Hrow, Hsplit, Hseq, <- app_assoc. simpl.
    unfold drawn_cell at 3. by rewrite <- Hm, Hdraw.
Qed.

Lemma newboard_row_rows (rnd : nat → Z) (n w i : nat) (h : Z) (s : Board * nat) :
  make_ok 1 h = true → (i < w)%nat → newboard_rows rnd n w (Z.to_nat h) i s →
  ∃ s', newboard_row rnd h i s = Some s' ∧
        newboard_rows rnd n w (Z.to_nat h) (S i) s'.
Proof.
  intros Hh Hi (Hm & Hlen & Hrows). destruct s as [b m]. simpl in *.
  rewrite Hh. cbn [negb].
  unfold set_row. rewrite decide_True by lia.
  destruct (for_range_inv (newboard_cols rnd n w (Z.to_nat h) i)
              (newboard_cell rnd i) (Z.to_nat h) 0
              (<[i := replicate (Z.to_nat h) false]> b, m))
    as ([b' m'] & Hrun & Hm' & Hlen' & Hrows' & Hrow').
  - unfold newboard_cols. simpl.
    split; [lia |]. split; [by rewrite length_insert |]. split.
    + intros i' Hi'. rewrite list_lookup_insert_ne by lia. by apply Hrows.
    + rewrite list_lookup_insert_eq by lia. by rewrite Nat.sub_0_r.
  - intros j t Hj Ht. apply newboard_cell_cols; [done | lia | done].
  - exists (b', m'). split; [done |]. unfold newboard_rows. simpl in *.
    split; [lia |]. split; [done |].
    intros i' Hi'. destruct (decide (i' = i)) as [-> | Hne].
    + rewrite Hrow', Nat.sub_diag. simpl. by rewrite app_nil_r.
    + apply Hrows'. lia.
Qed.

(** What [NewBoard] returns when neither [make] panics. *)
Lemma NewBoard_closed_form (rnd : nat → Z) (w h : Z) (n : nat) :
  make_ok 24 w = true → make_ok 1 h = true →
  NewBoard rnd w h n =
  Some (map (fun i => map (drawn_cell rnd n (Z.to_nat h) i) (seq 0 (Z.to_nat h)))
          (seq 0 (Z.to_nat w)),
        (n + Z.to_nat w * Z.to_nat h)%nat).
Proof.
  intros Hw Hh. unfold NewBoard. rewrite Hw. cbn [negb].
  destruct (for_range_inv (newboard_rows rnd n (Z.to_nat w) (Z.to_nat h))
              (newboard_row rnd h) (Z.to_nat w) 0
              (replicate (Z.to_nat w) [], n))
    as ([b m] & Hrun & Hm & Hlen & Hrows).
  - unfold newboard_rows. simpl.
    split; [lia |]. split; [by rewrite length_replicate |].
    intros i Hi. lia.
  - intros i t Hi Ht. apply newboard_row_rows; [done | lia | done].
  - rewrite Hrun. simpl in *. f_equal. f_equal; [| done].
    apply list_eq. intros i. rewrite list_lookup_fmap.
    destruct (decide (i < Z.to_nat w)%nat) as [Hi | Hi].
    + rewrite Hrows by done. by rewrite lookup_seq_lt.
    + rewrite lookup_seq_ge by lia. simpl. apply lookup_ge_None. lia.
Qed.

(** X4. Whenever [NewBoard(w, h)] returns, the board has [w] rows of
    [h] cells and exactly [w * h] calls of [rand.Int()] have been made;
    the cell at row [i], column [j] is live exactly when the draw number
    [i * h + j] (counted from the first draw of the call) is a multiple
    of 5. *)
Theorem NewBoard_cells (rnd : nat → Z) (w h : Z) (n n' : nat) (b : Board) :
  NewBoard rnd w h n = Some (b, n') →
  b = map (fun i => map (drawn_cell rnd n (Z.to_nat h) i) (seq 0 (Z.to_nat h)))
        (seq 0 (Z.to_nat w)) ∧
  n' = (n + Z.to_nat w * Z.to_nat h)%nat.
Proof.
  intros Hsome.
  destruct (make_ok 24 w) eqn:Hw.
  2:{ unfold NewBoard in Hsome. by rewrite Hw in Hsome. }
  destruct (make_ok 1 h) eqn:Hh.
  { rewrite NewBoard_closed_form in Hsome by done.
    by injection Hsome as <- <-. }
  unfold NewBoard in Hsome. rewrite Hw in Hsome. cbn [negb] in Hsome.
  destruct (Z.to_nat w) as [| k] eqn:Hk.
  - simpl in Hsome. injection Hsome as <- <-. split; [done | lia].
  - cbn [for_range] in Hsome. unfold newboard_row at 1 in Hsome.
    by rewrite Hh in Hsome.
Qed.

Lemma NewBoard_cells_witness :
  NewBoard (fun n => Z.of_nat n) 2 3 0 =
    Some ([ [true; false; false]; [false; false; true] ], 6%nat) ∧
  [ [true; false; false]; [false; false; true] ] =
    map (fun i => map (drawn_cell (fun n => Z.of_nat n) 0 3 i) (seq 0 3))
      (seq 0 2).
Proof.
  assert (Hrun : NewBoard (fun n => Z.of_nat n) 2 3 0 =
                 Some ([ [true; false; false]; [false; false; true] ], 6%nat))
    by (vm_compute; reflexivity).
  split; [exact Hrun |].
  exact (proj1 (NewBoard_cells (fun n => Z.of_nat n) 2 3 0 6
                  [ [true; false; false]; [false; false; true] ] Hrun)).
Defined.

(** ** Evolute: the empty world, and mirror images *)

Lemma all_dead_alive (b : Board) (x y : Z) :
  forallb (forallb negb) b = true → alive b x y = false.
Proof.
  intros Hdead. unfold alive.
  destruct ((0 <=? x) && (0 <=? y)); [| done].
  destruct (b !! Z.to_nat x) as [row |] eqn:Hrow; [| done].
  destruct (row !! Z.to_nat y) as [v |] eqn:Hv; [| done]. simpl.
  rewrite forallb_forall in Hdead.
  assert (Hin : In row b).
  { apply list_elem_of_In. by eapply list_elem_of_lookup_2. }
  apply Hdead in Hin. rewrite forallb_forall in Hin.
  assert (Hinv : In v row).
  { apply list_elem_of_In. by eapply list_elem_of_lookup_2. }
  apply Hin in Hinv. by destruct v.
Qed.

Lemma all_dead_cell_value (b : Board) (i j : nat) :
  forallb (forallb negb) b = true → cell_value b i j = false.
Proof.
  intros Hdead. unfold cell_value, next_cell, count_neighbours, directions.
  cbn [fold_left fst snd]. rewrite !Get_alive.
  by rewrite !all_dead_alive.
Qed.

(** X6. A board with no live cell is its own successor, whatever its
    shape: [Evolute] never brings a cell to life on an empty world. *)
Theorem Evolute_dead_board (b : Board) :
  forallb (forallb negb) b = true → Evolute b = Some b.
Proof.
  intros Hdead.
  destruct (evolute_run_spec b) as (s & Hrun & _ & Hlen & Hdone).
  unfold Evolute. rewrite Hrun. f_equal.
  apply list_eq. intros i.
  destruct (b !! i) as [row |] eqn:Hrow.
  - destruct (Hdone i (lookup_lt_Some _ _ _ Hrow) row Hrow)
      as (row' & -> & Hlen' & Hcells).
    f_equal. apply list_eq. intros j.
    destruct (decide (j < length row)%nat) as [Hj | Hj].
    + rewrite Hcells, all_dead_cell_value by done.
      destruct (lookup_lt_is_Some_2 row j Hj) as [v Hv]. rewrite Hv. f_equal.
      pose proof (alive_lookup b i j row v Hrow Hv) as Hal.
      rewrite all_dead_alive in Hal by done. done.
    + rewrite !(proj2 (lookup_ge_None _ _)) by lia. done.
  - apply lookup_ge_None. apply lookup_ge_None in Hrow. lia.
Qed.

Lemma Evolute_dead_board_witness :
  Evolute [ [false; false]; []; [false] ] = Some [ [false; false]; []; [false] ].
Proof. apply Evolute_dead_board. reflexivity. Defined.

Lemma alive_reverse (b : Board) (x y : Z) :
  alive (reverse b) x y = alive b (len b - 1 - x) y.
Proof.
  unfold alive, len.
  destruct (Z.leb_spec 0 x) as [Hx | Hx]; simpl.
  - destruct (Z.leb_spec 0 (Z.of_nat (length b) - 1 - x)) as [Hx' | Hx']; simpl.
    + rewrite reverse_lookup by lia.
      replace (length b - S (Z.to_nat x))%nat
        with (Z.to_nat (Z.of_nat (length b) - 1 - x)) by lia.
      done.
    + rewrite (proj2 (lookup_ge_None (reverse b) (Z.to_nat x)))
        by (rewrite length_reverse; lia).
      by destruct (0 <=? y).
  - destruct (Z.leb_spec 0 (Z.of_nat (length b) - 1 - x)) as [Hx' | Hx'];
      [| done]. simpl.
    rewrite (proj2 (lookup_ge_None b _)) by lia.
    by destruct (0 <=? y).
Qed.

Lemma count_neighbours_reverse (b : Board) (i j : Z) :
  0 <= i < len b → len b <= GoInt.max_int → 0 <= j < GoInt.max_int →
  count_neighbours (reverse b) i j = count_neighbours b (len b - 1 - i) j.
Proof.
  intros Hi Hlen Hj.
  assert (Hmin : GoInt.min_int < 0) by reflexivity.
  unfold count_neighbours, directions. cbn [fold_left fst snd].
  rewrite !Get_alive.
  rewrite (add_in_range i 1), (add_in_range i 0), (add_in_range i (-1)),
    (add_in_range j 1), (add_in_range j 0), (add_in_range j (-1)),
    (add_in_range (len b - 1 - i) 1), (add_in_range (len b - 1 - i) 0),
    (add_in_range (len b - 1 - i) (-1))
    by (unfold GoInt.in_range; lia).
  rewrite !alive_reverse.
  replace (len b - 1 - (i + 1)) with (len b - 1 - i + -1) by lia.
  replace (len b - 1 - (i + 0)) with (len b - 1 - i + 0) by lia.
  replace (len b - 1 - (i + -1)) with (len b - 1 - i + 1) by lia.
  generalize (len b - 1 - i). intros i'.
  destruct (alive b (i' + 1) (j + 1)), (alive b (i' + 1) (j + 0)),
    (alive b (i' + 1) (j + -1)), (alive b (i' + 0) (j + 1)),
    (alive b (i' + 0) (j + -1)), (alive b (i' + -1) (j + 1)),
    (alive b (i' + -1) (j + 0)), (alive b (i' + -1) (j + -1));
    vm_compute; reflexivity.
Qed.

Lemma cell_value_reverse (b : Board) (i j : nat) (row : list bool) :
  well_sized b = true → (i < length b)%nat →
  b !! (length b - S i)%nat = Some row → (j < length row)%nat →
  cell_value (reverse b) i j = cell_value b (length b - S i) j.
Proof.
  intros Hws Hi Hrow Hj.
  destruct (well_sized_index b _ j row Hws Hrow Hj) as [_ Hj'].
  assert (Hlen : len b <= GoInt.max_int).
  { unfold well_sized in Hws. apply andb_prop in Hws as [Hws _].
    by apply Z.leb_le. }
  unfold cell_value, next_cell.
  rewrite count_neighbours_reverse by (unfold len in *; lia).
  rewrite !Get_alive, alive_reverse.
  replace (len b - 1 - Z.of_nat i) with (Z.of_nat (length b - S i))
    by (unfold len; lia).
  done.
Qed.

(** X7. [Evolute] commutes with turning the board upside down: the
    successor of the board with its rows in reverse order is the
    successor with its rows in reverse order. *)
Theorem Evolute_reverse (b : Board) :
  well_sized b = true →
  ∃ nb, Evolute b = Some nb ∧ Evolute (reverse b) = Some (reverse nb).
Proof.
  intros Hws.
  destruct (evolute_run_spec b) as (s & Hrun & _ & Hlen & Hdone).
  destruct (evolute_run_spec (reverse b)) as (s' & Hrun' & _ & Hlen' & Hdone').
  exists (newBoard s). unfold Evolute. rewrite Hrun, Hrun'.
  split; [done |]. f_equal.
  rewrite length_reverse in Hlen', Hdone'.
  apply list_eq. intros i.
  destruct (decide (i < length b)%nat) as [Hi | Hi].
  - rewrite (reverse_lookup (newBoard s)) by lia. rewrite Hlen.
    destruct (lookup_lt_is_Some_2 b (length b - S i) ltac:(lia)) as [row Hrow].
    destruct (Hdone (length b - S i)%nat ltac:(lia) row Hrow)
      as (r & -> & Hr & Hcells).
    destruct (Hdone' i Hi row) as (r' & -> & Hr' & Hcells').
    { by rewrite reverse_lookup. }
    f_equal. apply list_eq. intros j.
    destruct (decide (j < length row)%nat) as [Hj | Hj].
    + rewrite Hcells, Hcells' by done. f_equal.
      by apply (cell_value_reverse b i j row).
    + rewrite !(proj2 (lookup_ge_None _ _)) by lia. done.
  - rewrite !(proj2 (lookup_ge_None _ _)); [done | |].
    + rewrite length_reverse. lia.
    + lia.
Qed.

Lemma Evolute_reverse_witness :
  ∃ nb, Evolute glider = Some nb ∧ Evolute (reverse glider) = Some (reverse nb).
Proof. apply Evolute_reverse. vm_compute. reflexivity. Defined.

(** ** The engine loop *)

Lemma Evolute_lengths (b : Board) :
  ∃ nb, Evolute b = Some nb ∧ map length nb = map length b.
Proof.
  destruct (evolute_run_spec b) as (s & Hrun & _ & Hlen & Hdone).
  exists (newBoard s). unfold Evolute. rewrite Hrun. split; [done |].
  apply list_eq. intros i. rewrite !list_lookup_fmap.
  destruct (b !! i) as [row |] eqn:Hrow; simpl.
  - destruct (Hdone i (lookup_lt_Some _ _ _ Hrow) row Hrow)
      as (row' & -> & Hlen' & _).
    simpl. by rewrite Hlen'.
  - apply lookup_ge_None in Hrow.
    rewrite (proj2 (lookup_ge_None (newBoard s) i)) by lia. done.
Qed.

Lemma selects_outcomes (outs : list (chan_id * bool)) :
  selects (map (fun o => EffSelect (fst o) (snd o)) outs) = length outs ∧
  evolutions (map (fun o => EffSelect (fst o) (snd o)) outs) = 0%nat.
Proof. induction outs as [| o outs [IH1 IH2]]; simpl; [done |]. by rewrite IH1. Qed.

Lemma publish_selects (chs : gset chan_id) (f : ImageBundle)
    (σ : gmap chan_id Chan) :
  length (snd (publish chs f σ)) = size chs.
Proof.
  unfold publish. rewrite publish_in_outcomes by apply NoDup_elements.
  by rewrite length_map.
Qed.

(** What a turn of the loop does when a sink is registered and the board
    has a row: it returns, with the successor board, one more [Evolute]
    call, one [select] per sink and nothing printed. *)
Lemma engine_iter_busy (cv : Svgo) (r : GameRender) (e : Engine) :
  busy r = true → e_board e ≠ [] →
  ∃ nb img,
    Evolute (e_board e) = Some nb ∧ Svg cv nb 10 = Some (img, None) ∧
    engine_iter cv r e =
      Some (mkEngine nb
              (fst (publish (gameChs r) (mkImageBundle img svg_content_type)
                      (e_sinks e)))
              (e_trace e ++ [EffEvolute]
                 ++ map (fun o => EffSelect (fst o) (snd o))
                      (snd (publish (gameChs r)
                              (mkImageBundle img svg_content_type) (e_sinks e)))
                 ++ [EffSleep 1000])).
Proof.
  intros Hbusy Hb. unfold busy in Hbusy.
  apply negb_true_iff, bool_decide_eq_false in Hbusy.
  destruct (Evolute_lengths (e_board e)) as (nb & Hev & Hlen).
  assert (Hnb : nb ≠ []).
  { intros ->. destruct (e_board e); [done | discriminate]. }
  destruct (Svg_total cv nb 10 Hnb) as [img Himg].
  exists nb, img. split; [done |]. split; [done |].
  unfold engine_iter. rewrite decide_False by done. rewrite Hev, Himg.
  by destruct (publish (gameChs r) (mkImageBundle img svg_content_type) (e_sinks e)).
Qed.

(** X8. In a turn with a sink registered, the frame the engine publishes
    is the encoding of the board after the step, labelled
    [image/svg+xml]: every registered sink whose receiver is parked is
    handed that frame, and no other sink changes. *)
Theorem engine_publishes_successor (cv : Svgo) (r : GameRender) (e : Engine) :
  busy r = true → e_board e ≠ [] →
  ∃ nb img e',
    Evolute (e_board e) = Some nb ∧ Svg cv nb 10 = Some (img, None) ∧
    engine_iter cv r e = Some e' ∧ e_board e' = nb ∧
    ∀ ch, e_sinks e' !! ch =
      if decide (ch ∈ gameChs r)
      then deliver (mkImageBundle img "image/svg+xml") <$> e_sinks e !! ch
      else e_sinks e !! ch.
Proof.
  intros Hbusy Hb.
  destruct (engine_iter_busy cv r e Hbusy Hb) as (nb & img & Hev & Himg & Hit).
  exists nb, img. eexists. split; [done |]. split; [done |].
  split; [exact Hit |]. split; [reflexivity |].
  intros ch. cbn [e_sinks]. apply publish_lookup.
Qed.

Lemma engine_publishes_successor_witness :
  ∃ nb img e',
    Evolute glider = Some nb ∧ Svg sample_svgo nb 10 = Some (img, None) ∧
    engine_iter sample_svgo sample_game (mkEngine glider ∅ []) = Some e' ∧
    e_board e' = nb.
Proof.
  assert (Hbusy : busy sample_game = true) by (vm_compute; reflexivity).
  destruct (engine_publishes_successor sample_svgo sample_game
              (mkEngine glider ∅ []) Hbusy)
    as (nb & img & e' & Hev & Himg & Hit & Hb & _).
  - discriminate.
  - exists nb, img, e'. repeat split; assumption.
Defined.

Lemma engine_iter_shape (cv : Svgo) (r : GameRender) (e : Engine) :
  e_board e ≠ [] →
  ∃ e', engine_iter cv r e = Some e' ∧
    map length (e_board e') = map length (e_board e) ∧
    printlns (e_trace e') = printlns (e_trace e) ∧
    evolutions (e_trace e') =
      (evolutions (e_trace e) + if busy r then 1 else 0)%nat ∧
    selects (e_trace e') =
      (selects (e_trace e) + if busy r then size (gameChs r) else 0)%nat.
Proof.
  intros Hb. destruct (busy r) eqn:Hbusy.
  - destruct (engine_iter_busy cv r e Hbusy Hb) as (nb & img & Hev & _ & ->).
    eexists. split; [done |]. simpl.
    destruct (Evolute_lengths (e_board e)) as (nb' & Hev' & Hlen).
    assert (nb' = nb) as -> by congruence.
    split; [done |].
    rewrite printlns_app, evolutions_app, selects_app. simpl.
    rewrite printlns_app, evolutions_app, selects_app. simpl.
    rewrite printlns_selects.
    destruct (selects_outcomes
                (snd (publish (gameChs r) (mkImageBundle img svg_content_type)
                        (e_sinks e)))) as [-> ->].
    rewrite publish_selects. repeat split; lia.
  - unfold busy in Hbusy.
    apply negb_false_iff, bool_decide_eq_true in Hbusy.
    unfold engine_iter. rewrite decide_True by done.
    eexists. split; [done |]. simpl.
    rewrite printlns_app, evolutions_app, selects_app. simpl.
    repeat split; lia.
Qed.

Lemma map_length_replicate (b : Board) (n m : nat) :
  length b = n → Forall (fun row => length row = m) b →
  map length b = replicate n m.
Proof.
  intros <- Hrows. induction Hrows as [| row b Hrow Hrows IH]; [done |].
  cbn [map length replicate]. by rewrite Hrow, IH.
Qed.

Lemma engine_turn_quiet (cv : Svgo) (gm : GoMap) (e : Engine) :
  m_writing gm = false →
  engine_turn cv gm e = engine_iter cv (mkGameRender (m_elems gm)) e.
Proof.
  intros Hq. unfold engine_turn, GameRender_turn_steps, by_goroutine.
  destruct gm as [chs w]. simpl in Hq. subst w. cbn [m_elems].
  rewrite map_map. cbn [snd]. rewrite map_id. cbn [map_run map_step].
  destruct (decide (size chs = 0%nat)); [done |].
  by rewrite map_run_range.
Qed.

Lemma engine_turns_shape (cv : Svgo) (gms : list GoMap) (e : Engine)
    (shape : list nat) :
  quiet gms = true → shape ≠ [] → map length (e_board e) = shape →
  ∃ e', engine_turns cv gms e = Some e' ∧
    map length (e_board e') = shape ∧
    printlns (e_trace e') = printlns (e_trace e) ∧
    evolutions (e_trace e') =
      (evolutions (e_trace e)
       + length (List.filter (fun gm => busy (mkGameRender (m_elems gm))) gms))%nat.
Proof.
  intros Hq Hshape. revert e.
  induction gms as [| gm gms IH]; intros e He.
  - exists e. cbn [engine_turns List.filter length]. repeat split; [done | lia].
  - cbn [quiet forallb] in Hq. apply andb_prop in Hq as [Hgm Hq].
    apply negb_true_iff in Hgm.
    destruct (engine_iter_shape cv (mkGameRender (m_elems gm)) e)
      as (e1 & Hit & Hl1 & Hp1 & Hv1 & _).
    { intros Hnil. rewrite Hnil in He. by subst shape. }
    destruct (IH Hq e1) as (e' & Hrun' & Hl' & Hp' & Hv'); [congruence |].
    exists e'. cbn [engine_turns List.filter].
    rewrite engine_turn_quiet by done. rewrite Hit.
    split; [done |]. split; [done |].
    split; [congruence |]. rewrite Hv', Hv1.
    destruct (busy (mkGameRender (m_elems gm))); cbn [length]; lia.
Qed.

(** X9. As long as no turn of the loop of [GameRender.Start] finds the
    shared map in the middle of a write, the engine started on
    [NewBoard(80, 60)] completes every turn: [Evolute] and [Svg] do not
    panic, no encoding error is printed, the board always has 80 rows of
    60 cells, and [Evolute] has been called once for each turn that found
    a sink registered. *)
Theorem engine_runs_while_quiet (cv : Svgo) (rnd : nat → Z)
    (σ : gmap chan_id Chan) (gms : list GoMap) :
  quiet gms = true →
  ∃ e0 e, engine_start rnd σ = Some e0 ∧ engine_turns cv gms e0 = Some e ∧
    map length (e_board e) = replicate 80 60%nat ∧
    printlns (e_trace e) = 0%nat ∧
    evolutions (e_trace e) =
      length (List.filter (fun gm => busy (mkGameRender (m_elems gm))) gms).
Proof.
  intros Hq.
  destruct (NewBoard_shape rnd 80 60 0) as (b & n' & Hnew & Hlen & Hrows);
    [reflexivity | reflexivity |].
  unfold engine_start. rewrite Hnew. exists (mkEngine b σ []).
  destruct (engine_turns_shape cv gms (mkEngine b σ []) (replicate 80 60%nat) Hq)
    as (e' & Hrun' & Hl' & Hp' & Hv').
  - discriminate.
  - by apply map_length_replicate.
  - exists e'. split; [done |]. split; [done |]. split; [done |].
    split; [exact Hp' | exact Hv'].
Qed.

Lemma engine_runs_while_quiet_witness :
  ∃ e0 e, engine_start (fun _ => 0) ∅ = Some e0 ∧
    engine_turns sample_svgo [mkGoMap ∅ false; mkGoMap {[1%nat]} false] e0
      = Some e ∧
    map length (e_board e) = replicate 80 60%nat ∧
    printlns (e_trace e) = 0%nat ∧
    evolutions (e_trace e) =
      length (List.filter (fun gm => busy (mkGameRender (m_elems gm)))
                [mkGoMap ∅ false; mkGoMap {[1%nat]} false]).
Proof.
  apply (engine_runs_while_quiet sample_svgo (fun _ => 0) ∅
           [mkGoMap ∅ false; mkGoMap {[1%nat]} false]).
  reflexivity.
Defined.

(** ** A hub and its sessions over time *)

Lemma ready_publish (chs : gset chan_id) (f : ImageBundle)
    (σ : gmap chan_id Chan) (ch : chan_id) :
  ready (fst (publish chs f σ)) ch =
  if decide (ch ∈ chs) then false else ready σ ch.
Proof.
  unfold ready. rewrite publish_lookup.
  destruct (decide (ch ∈ chs)); [| done].
  destruct (σ !! ch) as [c |]; simpl; [| done].
  unfold deliver. by destruct (parked c) eqn:Hp.
Qed.

Lemma sent_iff (chs : gset chan_id) (f : ImageBundle) (σ : gmap chan_id Chan)
    (ch : chan_id) :
  (ch, true) ∈ snd (publish chs f σ) ↔ ch ∈ chs ∧ ready σ ch = true.
Proof.
  unfold publish. rewrite publish_in_outcomes by apply NoDup_elements.
  rewrite list_elem_of_fmap. split.
  - intros (c & [= -> Hr] & Hin). by apply elem_of_elements in Hin.
  - intros [Hin Hr]. exists ch. rewrite Hr. by rewrite elem_of_elements.
Qed.

Lemma hub_run_publish (chs : gset chan_id) (ch : chan_id) (f : ImageBundle)
    (rest : list HubEvent) (σ : gmap chan_id Chan) :
  snd (hub_run chs ch (HPublish f :: rest) σ) =
  if bool_decide ((ch, true) ∈ snd (publish chs f σ))
  then f :: snd (hub_run chs ch rest (fst (publish chs f σ)))
  else snd (hub_run chs ch rest (fst (publish chs f σ))).
Proof.
  simpl. destruct (publish chs f σ) as [σ1 outs]. simpl.
  by destruct (hub_run chs ch rest σ1).
Qed.

(** X10. Whatever the order in which a hub publishes and sessions come
    back to their [select], the frames sent to a sink are some of the
    published frames, in the order of publication, and there is at most
    one of them for each time the sink's session has parked (one more if
    it was parked at the start): a sink is never sent two frames in a
    row. *)
Theorem hub_run_one_per_park (chs : gset chan_id) (ch : chan_id)
    (evs : list HubEvent) (σ : gmap chan_id Chan) :
  sublist (snd (hub_run chs ch evs σ)) (published evs) ∧
  (length (snd (hub_run chs ch evs σ))
   ≤ (if ready σ ch then 1 else 0) + readies ch evs)%nat.
Proof.
  revert σ. induction evs as [| [f | c] evs IH]; intros σ.
  - simpl. split; [constructor | lia].
  - rewrite hub_run_publish. cbn [published readies].
    destruct (IH (fst (publish chs f σ))) as [IHs IHl].
    rewrite ready_publish in IHl.
    destruct (bool_decide ((ch, true) ∈ snd (publish chs f σ))) eqn:Hsent.
    + apply bool_decide_eq_true, sent_iff in Hsent as [Hin Hr].
      rewrite decide_True in IHl by done. rewrite Hr.
      split; [by constructor | simpl; lia].
    + split; [by constructor |].
      destruct (decide (ch ∈ chs)); [destruct (ready σ ch); lia | done].
  - cbn [hub_run published readies].
    destruct (IH (alter (fun x => park (consume x)) c σ)) as [IHs IHl].
    split; [done |].
    destruct (bool_decide (c = ch)) eqn:Hc.
    + destruct (ready (alter (fun x => park (consume x)) c σ) ch),
        (ready σ ch); lia.
    + apply bool_decide_eq_false in Hc.
      replace (ready (alter (fun x => park (consume x)) c σ) ch)
        with (ready σ ch) in IHl; [done |].
      unfold ready. by rewrite lookup_alter_ne.
Qed.

(** ** The order of the publish loop *)

(** X11. Go does not fix the order in which [range] visits a map; the
    publish loop gives the same sinks and the same outcome per sink
    whatever order it visits the registered sinks in. *)
Theorem publish_order_irrelevant (order order' : list chan_id)
    (f : ImageBundle) (σ : gmap chan_id Chan) :
  NoDup order → order ≡ₚ order' →
  fst (publish_in order f σ) = fst (publish_in order' f σ) ∧
  snd (publish_in order f σ) ≡ₚ snd (publish_in order' f σ).
Proof.
  intros Hnd Hperm.
  assert (Hnd' : NoDup order') by (by rewrite <- Hperm).
  split.
  - apply map_eq. intros ch. rewrite !publish_in_lookup by done.
    destruct (decide (ch ∈ order)) as [Hin | Hnin].
    + rewrite (decide_True (P := ch ∈ order')); [done | by rewrite <- Hperm].
    + rewrite (decide_False (P := ch ∈ order')); [done | by rewrite <- Hperm].
  - rewrite !publish_in_outcomes by done. by apply Permutation_map.
Qed.

Lemma publish_order_irrelevant_witness :
  fst (publish_in [1; 2; 3]%nat sample_frame ∅) =
  fst (publish_in [3; 1; 2]%nat sample_frame ∅).
Proof.
  apply (publish_order_irrelevant [1; 2; 3]%nat [3; 1; 2]%nat sample_frame ∅).
  - repeat constructor; set_solver.
  - change [3; 1; 2]%nat with ([3]%nat ++ [1; 2]%nat).
    change [1; 2; 3]%nat with ([1; 2]%nat ++ [3]%nat).
    apply Permutation_app_comm.
Defined.

(** ** Joining twice, and in either order *)

Lemma size_join (c : chan_id) (vs : gset chan_id) :
  size ({[c]} ∪ vs) = if decide (c ∈ vs) then size vs else S (size vs).
Proof.
  destruct (decide (c ∈ vs)) as [Hin | Hnin].
  - f_equal. set_solver.
  - rewrite size_union by set_solver. by rewrite size_singleton.
Qed.


(** X12. For both hubs, registering a sink that is already a member
    changes neither the membership nor the count, a new sink adds one to
    the count, and two registrations give the same membership in either
    order. *)
Theorem register_twice (cv : Svgo) (c d : chan_id) (r : GameRender)
    (vw : ViewersWorld) :
  let join_game x h := fst (Register GameRender_Render x h) in
  let join_viewers x h := fst (Register (ViewersRender_Render cv) x h) in
  (members GameRender_Render (join_game c (join_game c r))
     = members GameRender_Render (join_game c r) ∧
   members GameRender_Render (join_game c (join_game d r))
     = members GameRender_Render (join_game d (join_game c r)) ∧
   size (members GameRender_Render (join_game c r))
     = if decide (c ∈ members GameRender_Render r)
       then size (members GameRender_Render r)
       else S (size (members GameRender_Render r))) ∧
  (members (ViewersRender_Render cv) (join_viewers c (join_viewers c vw))
     = members (ViewersRender_Render cv) (join_viewers c vw) ∧
   members (ViewersRender_Render cv) (join_viewers c (join_viewers d vw))
     = members (ViewersRender_Render cv) (join_viewers d (join_viewers c vw)) ∧
   size (members (ViewersRender_Render cv) (join_viewers c vw))
     = if decide (c ∈ members (ViewersRender_Render cv) vw)
       then size (members (ViewersRender_Render cv) vw)
       else S (size (members (ViewersRender_Render cv) vw))).
Proof.
  intros join_game join_viewers.
  split; (split; [| split]).
  - change (({[c]} ∪ ({[c]} ∪ gameChs r) : gset chan_id) = {[c]} ∪ gameChs r).
    set_solver.
  - change (({[c]} ∪ ({[d]} ∪ gameChs r) : gset chan_id)
            = {[d]} ∪ ({[c]} ∪ gameChs r)).
    set_solver.
  - apply size_join.
  - change (({[c]} ∪ ({[c]} ∪ viewers vw) : gset chan_id) = {[c]} ∪ viewers vw).
    set_solver.
  - change (({[c]} ∪ ({[d]} ∪ viewers vw) : gset chan_id)
            = {[d]} ∪ ({[c]} ∪ viewers vw)).
    set_solver.
  - apply size_join.
Qed.

(** ** The viewer counter *)




(** ** Write errors, and the bytes of a whole stream *)

Lemma Write_plan (p : string) (w : ResponseWriter) :
  plan (fst (Write p w)) = tail (plan w) ∧
  header (fst (Write p w)) = header w ∧
  flushes (fst (Write p w)) = flushes w ∧
  is_flusher (fst (Write p w)) = is_flusher w ∧
  snd (Write p w) =
    match plan w with
    | WriteFail _ e :: _ => Some e
    | _ => None
    end.
Proof. unfold Write. by destruct (plan w) as [| [| k e] rest]. Qed.

Lemma write_frame_printed (data : ImageBundle) (w : ResponseWriter)
    (printed : list string) :
  snd (write_frame data w printed) =
  match snd (Write (Data data)
               (fst (Write (part_content_length data)
                  (fst (Write (part_content_type data)
                     (fst (Write part_boundary w))))))) with
  | Some e => printed ++ [e]
  | None => printed
  end.
Proof.
  unfold write_frame.
  destruct (Write part_boundary w) as [w1 e1]. simpl.
  destruct (Write (part_content_type data) w1) as [w2 e2]. simpl.
  destruct (Write (part_content_length data) w2) as [w3 e3]. simpl.
  by destruct (Write (Data data) w3) as [w4 e4].
Qed.

(** X15. Of the four writes of a frame only the last one's error is
    looked at: the handler prints the error of the payload write when
    that write fails, and prints nothing otherwise, also when the
    boundary or header writes of the frame have failed. *)
Theorem write_frame_prints_last_error (data : ImageBundle)
    (w : ResponseWriter) (printed : list string) :
  snd (write_frame data w printed) =
  match plan w !! 3%nat with
  | Some (WriteFail _ e) => printed ++ [e]
  | _ => printed
  end.
Proof.
  rewrite write_frame_printed.
  destruct (Write_plan (Data data)
              (fst (Write (part_content_length data)
                 (fst (Write (part_content_type data)
                    (fst (Write part_boundary w))))))) as (_ & _ & _ & _ & ->).
  destruct (Write_plan (part_content_length data)
              (fst (Write (part_content_type data)
                 (fst (Write part_boundary w))))) as (-> & _).
  destruct (Write_plan (part_content_type data) (fst (Write part_boundary w)))
    as (-> & _).
  destruct (Write_plan part_boundary w) as (-> & _).
  destruct (plan w) as [| o1 [| o2 [| o3 [| [| k e] rest]]]]; done.
Qed.

(** X16. Whatever the connection does, the handler submits all four
    slices of a frame, in order; it uses up four write outcomes, leaves
    the response header as it is, and flushes once when the writer is a
    flusher and not at all otherwise. *)
Theorem write_frame_attempts_all (data : ImageBundle) (w : ResponseWriter)
    (printed : list string) :
  submitted (fst (write_frame data w printed)) =
    submitted w ++
      [ part_boundary; part_content_type data; part_content_length data;
        Data data ] ∧
  plan (fst (write_frame data w printed)) = drop 4 (plan w) ∧
  header (fst (write_frame data w printed)) = header w ∧
  flushes (fst (write_frame data w printed)) =
    (if is_flusher w then S (flushes w) else flushes w).
Proof.
  rewrite write_frame_writer.
  set (w1 := fst (Write part_boundary w)).
  set (w2 := fst (Write (part_content_type data) w1)).
  set (w3 := fst (Write (part_content_length data) w2)).
  set (w4 := fst (Write (Data data) w3)).
  destruct (Write_plan part_boundary w) as (Hp1 & Hh1 & Hf1 & Hi1 & _).
  destruct (Write_plan (part_content_type data) w1) as (Hp2 & Hh2 & Hf2 & Hi2 & _).
  destruct (Write_plan (part_content_length data) w2)
    as (Hp3 & Hh3 & Hf3 & Hi3 & _).
  destruct (Write_plan (Data data) w3) as (Hp4 & Hh4 & Hf4 & Hi4 & _).
  fold w1 in Hp1, Hh1, Hf1, Hi1. fold w2 in Hp2, Hh2, Hf2, Hi2.
  fold w3 in Hp3, Hh3, Hf3, Hi3. fold w4 in Hp4, Hh4, Hf4, Hi4.
  assert (Hsub : submitted w4 = submitted w ++
            [ part_boundary; part_content_type data; part_content_length data;
              Data data ]).
  { unfold w4, w3, w2, w1. rewrite !Write_submitted, <- !app_assoc. done. }
  assert (Hplan : plan w4 = drop 4 (plan w)).
  { rewrite Hp4, Hp3, Hp2, Hp1.
    by destruct (plan w) as [| o1 [| o2 [| o3 [| o4 rest]]]]. }
  assert (Hfl : is_flusher w4 = is_flusher w) by congruence.
  unfold flush. rewrite Hfl. destruct (is_flusher w); simpl.
  - repeat split; congruence.
  - repeat split; congruence.
Qed.

Lemma Write_clean (p : string) (w : ResponseWriter) :
  plan w = [] →
  plan (fst (Write p w)) = [] ∧ wire (fst (Write p w)) = wire w +:+ p ∧
  header (fst (Write p w)) = header w ∧ snd (Write p w) = None.
Proof. intros Hplan. unfold Write. by rewrite Hplan. Qed.

Lemma write_frame_clean (data : ImageBundle) (w : ResponseWriter)
    (printed : list string) :
  plan w = [] →
  wire (fst (write_frame data w printed)) = wire w +:+ frame_text data ∧
  plan (fst (write_frame data w printed)) = [] ∧
  header (fst (write_frame data w printed)) = header w ∧
  snd (write_frame data w printed) = printed.
Proof.
  intros Hplan. rewrite write_frame_printed, write_frame_writer.
  destruct (Write_clean part_boundary w Hplan) as (Hp1 & Hw1 & Hh1 & _).
  destruct (Write_clean (part_content_type data) _ Hp1) as (Hp2 & Hw2 & Hh2 & _).
  destruct (Write_clean (part_content_length data) _ Hp2)
    as (Hp3 & Hw3 & Hh3 & _).
  destruct (Write_clean (Data data) _ Hp3) as (Hp4 & Hw4 & Hh4 & ->).
  unfold flush.
  destruct (is_flusher _); cbn [wire plan header];
    rewrite Hw4, Hw3, Hw2, Hw1, Hp4, Hh4, Hh3, Hh2, Hh1; unfold frame_text;
    by rewrite !append_assoc.
Qed.

Lemma session_frames_wire {H : Type} (frames : list ImageBundle) (hub : H)
    (s : Session H) :
  s_state s = Streaming → plan (s_writer s) = [] →
  wire (s_writer (snd (session_run (map Frame frames) (hub, s)))) =
    wire (s_writer s) +:+ join (map frame_text frames) ∧
  header (s_writer (snd (session_run (map Frame frames) (hub, s)))) =
    header (s_writer s) ∧
  s_printed (snd (session_run (map Frame frames) (hub, s))) = s_printed s.
Proof.
  revert s. induction frames as [| f frames IH]; intros s Hs Hplan.
  - simpl. by rewrite append_empty_r.
  - cbn [map]. rewrite session_run_cons.
    destruct (write_frame_clean f (s_writer s) (s_printed s) Hplan)
      as (Hw & Hp & Hh & Hpr).
    unfold session_step. rewrite Hs.
    destruct (write_frame f (s_writer s) (s_printed s)) as [w' printed'].
    simpl in Hw, Hp, Hpr, Hh.
    match goal with
    | |- context [session_run _ (hub, ?s1)] =>
        destruct (IH s1 eq_refl Hp) as (IH1 & IH2 & IH3)
    end.
    rewrite IH1, IH2, IH3. simpl. rewrite Hw, Hh, Hpr.
    change (join (frame_text f :: map frame_text frames))
      with (frame_text f +:+ join (map frame_text frames)).
    by rewrite append_assoc.
Qed.

(** X17. On a connection that takes every write, the bytes of a stream
    are the parts of the frames the session received, one after the
    other in the order received, each part being the boundary line, the
    two header lines and the payload; nothing is printed. *)
Theorem stream_bytes {H : Type} (R : Render H) (hub : H) (ch : chan_id)
    (w : ResponseWriter) (frames : list ImageBundle) :
  plan w = [] →
  wire (s_writer (snd (session_run (map Frame frames)
                         (session_open R ch w hub)))) =
    wire w +:+ join (map frame_text frames) ∧
  s_printed (snd (session_run (map Frame frames) (session_open R ch w hub)))
    = [].
Proof.
  intros Hplan. unfold session_open.
  destruct (Register R ch hub) as [hub' unregister].
  match goal with
  | |- context [session_run _ (hub', ?s0)] =>
      destruct (session_frames_wire frames hub' s0 eq_refl Hplan)
        as (Hw & _ & Hp)
  end.
  by rewrite Hw, Hp.
Qed.

Lemma stream_bytes_witness :
  wire (s_writer (snd (session_run (map Frame [sample_frame; sample_frame])
                         (session_open GameRender_Render 7%nat (new_writer [])
                            sample_game)))) =
  join [frame_text sample_frame; frame_text sample_frame].
Proof.
  destruct (stream_bytes GameRender_Render sample_game 7%nat (new_writer [])
              [sample_frame; sample_frame]) as [Hw _].
  - reflexivity.
  - exact Hw.
Defined.

(** X18. When the context is done the handler sends nothing more: the
    bytes on the connection are those of the frames written so far, with
    no closing boundary; the response header then carries
    [Connection: close] next to the multipart content type, and events
    after that leave the session and the hub as they are. *)
Theorem session_close_sends_nothing {H : Type} (R : Render H) (hub : H)
    (ch : chan_id) (w : ResponseWriter) (frames : list ImageBundle)
    (evs : list SessionEvent) :
  wire (s_writer (snd (session_run (map Frame frames ++ [CtxDone])
                         (session_open R ch w hub)))) =
    wire (s_writer (snd (session_run (map Frame frames)
                           (session_open R ch w hub)))) ∧
  submitted (s_writer (snd (session_run (map Frame frames ++ [CtxDone])
                              (session_open R ch w hub)))) =
    submitted (s_writer (snd (session_run (map Frame frames)
                                (session_open R ch w hub)))) ∧
  header (s_writer (snd (session_run (map Frame frames ++ [CtxDone])
                           (session_open R ch w hub)))) !! "Connection" =
    Some "close" ∧
  session_run (map Frame frames ++ CtxDone :: evs) (session_open R ch w hub) =
    session_run (map Frame frames ++ [CtxDone]) (session_open R ch w hub).
Proof.
  unfold session_open. destruct (Register R ch hub) as [hub' unregister].
  match goal with
  | |- context [session_run _ (hub', ?s0)] =>
      destruct (session_run_frames frames hub' s0 eq_refl) as (Hh & Hst & _);
      destruct (session_run (map Frame frames) (hub', s0)) as [hub2 s2] eqn:Hrun
  end.
  simpl in Hh, Hst. subst hub2.
  rewrite !session_run_app, Hrun.
  rewrite !session_run_cons, (session_step_done hub' s2 Hst).
  rewrite (session_run_closed evs) by done.
  cbn [session_run fold_left snd s_writer header_set wire submitted header].
  split; [done |]. split; [done |]. split; [| done].
  by rewrite lookup_insert_eq.
Qed.

(** ** Board.image, Board.Jpeg and Board.Png *)

(** A loop whose body folds [step] over the items [g k] folds it over
    the items of [g lo], ..., [g (lo + n - 1)] in this order. *)
Lemma for_range_fold {St A : Type} (step : St → A → St) (g : nat → list A)
    (body : nat → St → option St) (n lo : nat) (s : St) :
  (∀ k t, (lo ≤ k < lo + n)%nat → body k t = Some (fold_left step (g k) t)) →
  for_range lo n body s = Some (fold_left step (concat (map g (seq lo n))) s).
Proof.
  revert lo s. induction n as [| n IH]; intros lo s Hbody; [done |].
  cbn [for_range seq map concat]. rewrite Hbody by lia.
  rewrite fold_left_app. apply IH. intros k t Hk. apply Hbody. lia.
Qed.

Lemma concat_live_in_row (i lo : nat) (row : list bool)
    (g : nat → list (nat * nat)) :
  (∀ (j : nat) (v : bool), row !! j = Some v →
     g (lo + j)%nat = if v then [(i, (lo + j)%nat)] else []) →
  concat (map g (seq lo (length row))) = live_in_row i lo row.
Proof.
  revert lo. induction row as [| v row IH]; intros lo Hg; [done |].
  cbn [length seq map concat live_in_row]. rewrite (IH (S lo)).
  - pose proof (Hg 0%nat v eq_refl) as H0. rewrite Nat.add_0_r in H0.
    rewrite H0. by destruct v.
  - intros j x Hx. replace (S lo + j)%nat with (lo + S j)%nat by lia.
    by apply (Hg (S j)).
Qed.

Lemma concat_live_from (lo : nat) (b : Board) (g : nat → list (nat * nat)) :
  (∀ i row, b !! i = Some row → g (lo + i)%nat = live_in_row (lo + i) 0 row) →
  concat (map g (seq lo (length b))) = live_from lo b.
Proof.
  revert lo. induction b as [| row b IH]; intros lo Hg; [done |].
  cbn [length seq map concat live_from]. rewrite (IH (S lo)).
  - pose proof (Hg 0%nat row eq_refl) as H0. rewrite Nat.add_0_r in H0.
    by rewrite H0.
  - intros i r Hr. replace (S lo + i)%nat with (lo + S i)%nat by lia.
    by apply (Hg (S i)).
Qed.

Lemma image_row_paints {Img : Type} (im : Imaging Img) (b : Board) (k : Z)
    (i : nat) (row : list bool) (img : Img) :
  b !! i = Some row →
  image_row im b k i img =
  Some (fold_left (fun t p => draw_black im t (cell_rect k p))
          (live_in_row i 0 row) img).
Proof.
  intros Hrow. unfold image_row. rewrite Hrow.
  rewrite (for_range_fold (fun t p => draw_black im t (cell_rect k p))
             (fun j => match row !! j with
                       | Some true => [(i, j)]
                       | _ => []
                       end)).
  - rewrite (concat_live_in_row i 0 row); [done |].
    intros j v Hv. simpl. by rewrite Hv.
  - intros j t Hj. unfold image_cell. rewrite Hrow.
    destruct (lookup_lt_is_Some_2 row j ltac:(lia)) as [v Hv].
    rewrite Hv. by destruct v.
Qed.

Lemma Board_image_paints {Img : Type} (im : Imaging Img) (row0 : list bool)
    (rest : Board) (k : Z) :
  Board_image im (row0 :: rest) k =
  match new_rgba im (image_Rect 0 0 (GoInt.mul k (len (row0 :: rest)))
                       (GoInt.mul k (len row0))) with
  | None => None
  | Some img =>
      Some (fold_left (fun t p => draw_black im t (cell_rect k p))
              (live_cells (row0 :: rest)) img)
  end.
Proof.
  unfold Board_image. cbn [lookup list_lookup].
  destruct (new_rgba im _) as [img |]; [| done].
  rewrite (for_range_fold (fun t p => draw_black im t (cell_rect k p))
             (fun i => live_in_row i 0 (default [] ((row0 :: rest) !! i)))).
  - rewrite (concat_live_from 0 (row0 :: rest)); [done |].
    intros i row Hrow. simpl. by rewrite Hrow.
  - intros i t Hi.
    destruct (lookup_lt_is_Some_2 (row0 :: rest) i ltac:(lia)) as [row Hrow].
    rewrite Hrow. by apply image_row_paints.
Qed.

(** X19. [Board.image] panics on a board with no rows and wherever
    [image.NewRGBA] does; otherwise it returns the image
    [k * len(b)] by [k * len(b[0])] on which it has painted, in
    row-major order, the square [(k*i, k*j)-(k*(i+1), k*(j+1))] of each
    live cell and nothing else. [Jpeg] and [Png] panic with it, and
    otherwise return what their encoder makes of that image: the bytes
    with a nil error, or no bytes with the encoder's error. *)
Theorem image_paints_live_cells {Img : Type} (im : Imaging Img) (b : Board)
    (k : Z) :
  Board_image im b k =
    match b with
    | [] => None
    | row0 :: _ =>
        match new_rgba im (image_Rect 0 0 (GoInt.mul k (len b))
                             (GoInt.mul k (len row0))) with
        | None => None
        | Some img =>
            Some (fold_left (fun t p => draw_black im t (cell_rect k p))
                    (live_cells b) img)
        end
    end ∧
  Jpeg im b k = (fun img => encoded (jpeg_Encode im img)) <$> Board_image im b k ∧
  Png im b k = (fun img => encoded (png_Encode im img)) <$> Board_image im b k ∧
  (∀ out, snd (encoded out) = snd out ∧
          fst (encoded out) = match snd out with
                              | Some _ => EmptyString
                              | None => fst out
                              end).
Proof.
  split; [| split; [| split]].
  - destruct b as [| row0 rest]; [done | apply Board_image_paints].
  - unfold Jpeg. by destruct (Board_image im b k).
  - unfold Png. by destruct (Board_image im b k).
  - intros [bytes [err |]]; done.
Qed.

Example image_of_glider :
  Board_image sample_imaging glider 10 =
  Some [ image_Rect 20 20 30 30; image_Rect 20 10 30 20; image_Rect 20 0 30 10;
         image_Rect 10 20 20 30; image_Rect 0 10 10 20 ] ∧
  Jpeg sample_imaging [ [false] ] 1 = Some (EmptyString, Some "nothing to encode") ∧
  Png sample_imaging [] 1 = None.
Proof. repeat split; vm_compute; reflexivity. Qed.


Example Evolute_mem_sample :
  (fun r => (snd r, board_of (fst r) (snd r), board_of (fst r) (Some 5%nat)))
    <$> Evolute_mem sample_mem (Some 5%nat) =
  Some (Some 6%nat, Some [ [true; true]; [true; true] ],
        Some [ [true; true]; [true; false] ]).
Proof. vm_compute. reflexivity. Qed.

(** ** Evolute on the heap: reading the argument *)

(** Memory that keeps every array of [m] shows the same board. *)
Lemma board_of_weaken (m m' : Mem) (board : option addr) (b : Board) :
  outers m ⊆ outers m' → inners m ⊆ inners m' →
  board_of m board = Some b → board_of m' board = Some b.
Proof.
  intros Ho Hi. unfold board_of. destruct board as [a |]; [| done].
  destruct (outers m !! a) as [hdrs |] eqn:Hhdrs; [| done].
  rewrite (lookup_weaken _ _ _ _ Hhdrs Ho).
  rewrite !mapM_Some. intros Hall. eapply Forall2_impl; [exact Hall |].
  intros [a' |] row; simpl; [| done].
  intros Hrow. by apply (lookup_weaken _ _ _ _ Hrow Hi).
Qed.

Lemma board_of_len (m : Mem) (board : option addr) (b : Board) :
  board_of m board = Some b → mem_len_board m board = length b.
Proof.
  unfold board_of, mem_len_board. destruct board as [a |]; [| by intros [= <-]].
  destruct (outers m !! a) as [hdrs |]; [| done]. simpl.
  intros Hb. by apply length_mapM in Hb.
Qed.

Lemma board_of_row (m : Mem) (board : option addr) (b : Board) (i : nat)
    (row : list bool) :
  board_of m board = Some b → b !! i = Some row →
  ∃ hdr, mem_row m board i = Some hdr ∧ mem_len_row m hdr = length row ∧
         ∀ j, mem_cell m hdr j = row !! j.
Proof.
  unfold board_of, mem_row. destruct board as [a |].
  2:{ intros [= <-]. done. }
  destruct (outers m !! a) as [hdrs |]; [| done]. simpl.
  intros Hb Hrow. apply mapM_Some in Hb.
  destruct (Forall2_lookup_r _ _ _ _ _ Hb Hrow) as (hdr & Hhdr & Hrowof).
  exists hdr. split; [done |].
  unfold mem_len_row, mem_cell. destruct hdr as [a' |]; simpl in Hrowof.
  - by rewrite Hrowof.
  - injection Hrowof as <-. done.
Qed.

Lemma Get_mem_value (m : Mem) (board : option addr) (b : Board) (i j : Z) :
  board_of m board = Some b → Get_mem m board i j = Get b i j.
Proof.
  intros Hb. unfold Get_mem, Get, len. rewrite (board_of_len m board b Hb).
  destruct ((i <? 0) || (i >=? Z.of_nat (length b))) eqn:Hi; [done |].
  apply orb_false_elim in Hi as [Hi0 Hi1].
  apply Z.ltb_ge in Hi0. rewrite Z.geb_leb in Hi1. apply Z.leb_gt in Hi1.
  destruct (lookup_lt_is_Some_2 b (Z.to_nat i) ltac:(lia)) as [row Hrow].
  destruct (board_of_row m board b _ row Hb Hrow) as (hdr & -> & -> & Hcell).
  rewrite Hrow, Hcell.
  destruct ((j <? 0) || (j >=? Z.of_nat (length row))); [done |].
  by destruct (row !! Z.to_nat j).
Qed.

Lemma cell_value_mem (m : Mem) (board : option addr) (b : Board) (i j : nat) :
  board_of m board = Some b →
  next_cell_mem m board (Z.of_nat i) (Z.of_nat j)
    (count_neighbours_mem m board (Z.of_nat i) (Z.of_nat j))
  = cell_value b i j.
Proof.
  intros Hb.
  unfold next_cell_mem, count_neighbours_mem, cell_value, next_cell,
    count_neighbours, directions.
  cbn [fold_left fst snd]. by rewrite !(Get_mem_value m board b).
Qed.

(** ** Evolute on the heap: the loops *)

Lemma partial_row_next (b : Board) (i len j : nat) :
  (j < len)%nat →
  <[j := cell_value b i j]> (partial_row b i len j) = partial_row b i len (S j).
Proof.
  intros Hj. unfold partial_row.
  assert (Hpre : length (map (cell_value b i) (seq 0 j)) = j)
    by (by rewrite length_map, length_seq).
  rewrite insert_app_r_alt by lia. rewrite Hpre, Nat.sub_diag.
  replace (len - j)%nat with (S (len - S j)) by lia.
  rewrite seq_S, map_app, <- app_assoc. done.
Qed.

Lemma length_partial_row (b : Board) (i len j : nat) :
  (j ≤ len)%nat → length (partial_row b i len j) = len.
Proof.
  intros Hj. unfold partial_row.
  rewrite length_app, length_map, length_seq, length_replicate. lia.
Qed.

(** One turn of the inner loop writes cell [j] of the new row, at [a],
    and nothing else. *)
Lemma evolute_mem_cell_step (m0 : Mem) (board : option addr) (b : Board)
    (nb a : addr) (i len j : nat) (hdrs : list (option addr))
    (o : gmap addr (list (option addr))) (inn : gmap addr (list bool)) :
  board_of m0 board = Some b →
  outers m0 ⊆ o → inners m0 ⊆ inn → inners m0 !! a = None →
  o !! nb = Some hdrs → hdrs !! i = Some (Some a) → (j < len)%nat →
  evolute_mem_cell board nb i j (mkMem o (<[a := partial_row b i len j]> inn))
  = Some (mkMem o (<[a := partial_row b i len (S j)]> inn)).
Proof.
  intros Hb Ho Hi Ha Hnb Hhdr Hj.
  assert (Hb' : board_of (mkMem o (<[a := partial_row b i len j]> inn)) board
                = Some b).
  { apply (board_of_weaken m0); [done | | done]. simpl.
    by apply insert_subseteq_r. }
  unfold evolute_mem_cell. rewrite (cell_value_mem _ board b i j Hb').
  unfold store_cell. cbn [outers inners]. rewrite Hnb, Hhdr.
  rewrite lookup_insert_eq.
  rewrite decide_True by (rewrite length_partial_row; lia).
  by rewrite insert_insert_eq, partial_row_next.
Qed.

Lemma insert_next_header (addrs : list addr) (a : addr) (n k : nat) :
  length addrs = k → (k < n)%nat →
  <[k := Some a]> ((Some <$> addrs) ++ replicate (n - k) None)
  = (Some <$> (addrs ++ [a])) ++ replicate (n - S k) None.
Proof.
  intros Hlen Hk.
  rewrite insert_app_r_alt by (rewrite length_fmap; lia).
  rewrite length_fmap, Hlen, Nat.sub_diag.
  replace (n - k)%nat with (S (n - S k)) by lia.
  rewrite fmap_app, <- app_assoc. done.
Qed.

(** One turn of the outer loop makes the array of row [k] and fills
    it. *)
Lemma evolute_mem_row_step (m0 : Mem) (board : option addr) (b : Board)
    (nb : addr) (k : nat) (m : Mem) :
  board_of m0 board = Some b → outers m0 !! nb = None →
  (k < length b)%nat → mem_outer_inv m0 b nb k m →
  ∃ m', evolute_mem_row board nb k m = Some m' ∧ mem_outer_inv m0 b nb (S k) m'.
Proof.
  intros Hb Hnb Hk (Ho & Hi & addrs & Hlen & Hnd & Hfresh & Hhdrs & Hrows).
  assert (Hbm : board_of m board = Some b) by (by apply (board_of_weaken m0)).
  destruct (lookup_lt_is_Some_2 b k Hk) as [row Hrow].
  destruct (board_of_row m board b k row Hbm Hrow) as (hdr & Hhdr & Hlenrow & _).
  unfold evolute_mem_row. rewrite Hhdr, Hlenrow.
  unfold alloc_inner. set (a := fresh (dom (inners m))).
  assert (Ha : inners m !! a = None).
  { apply not_elem_of_dom. apply is_fresh. }
  assert (Ha0 : inners m0 !! a = None).
  { destruct (inners m0 !! a) as [x |] eqn:Hx; [| done].
    by rewrite (lookup_weaken _ _ _ _ Hx Hi) in Ha. }
  unfold store_row. cbn [outers inners]. rewrite Hhdrs.
  rewrite decide_True.
  2:{ rewrite length_app, length_fmap, length_replicate. lia. }
  rewrite insert_next_header by done.
  set (hdrs' := (Some <$> (addrs ++ [a])) ++ replicate (length b - S k) None).
  assert (Hhdr' : hdrs' !! k = Some (Some a)).
  { unfold hdrs'. rewrite lookup_app_l by (rewrite length_fmap, length_app; simpl; lia).
    rewrite list_lookup_fmap, lookup_app_r by lia.
    by rewrite Hlen, Nat.sub_diag. }
  destruct (for_range_inv
              (fun j t => t = mkMem (<[nb := hdrs']> (outers m))
                                (<[a := partial_row b k (length row) j]> (inners m)))
              (evolute_mem_cell board nb k) (length row) 0
              (mkMem (<[nb := hdrs']> (outers m))
                 (<[a := replicate (length row) false]> (inners m))))
    as (m' & Hrun & ->).
  - unfold partial_row. simpl. by rewrite Nat.sub_0_r.
  - intros j t Hj ->. eexists. split; [| done].
    apply (evolute_mem_cell_step m0 board b nb a k (length row) j hdrs');
      try done; [by apply insert_subseteq_r | by rewrite lookup_insert_eq | lia].
  - exists (mkMem (<[nb := hdrs']> (outers m))
              (<[a := partial_row b k (length row) (0 + length row)]> (inners m))).
    split; [done |]. unfold mem_outer_inv. cbn [outers inners].
    split; [by apply insert_subseteq_r |].
    split; [by apply insert_subseteq_r |].
    exists (addrs ++ [a]).
    assert (Hnotin : a ∉ addrs).
    { intros Hin. apply list_elem_of_lookup in Hin as [i Hia].
      by rewrite (Hrows i a Hia) in Ha. }
    split; [rewrite length_app; simpl; lia |].
    split; [apply NoDup_app; split; [done | split; [| apply NoDup_singleton]];
            intros x Hx Hx'; apply list_elem_of_singleton in Hx'; by subst |].
    split; [apply Forall_app; split; [done | by constructor] |].
    split; [by rewrite lookup_insert_eq |].
    intros i a' Hia'. apply lookup_snoc_Some in Hia' as [[Hi' Hia'] | [-> ->]].
    + rewrite lookup_insert_ne; [by apply Hrows |].
      intros ->. apply Hnotin. by eapply list_elem_of_lookup_2.
    + rewrite lookup_insert_eq, Hlen. f_equal.
      unfold partial_row, successor_row. rewrite Hrow. simpl.
      by rewrite Nat.sub_diag, app_nil_r.
Qed.

(** The heap run of [Evolute]: it returns; the arrays it was given are
    untouched; the board it returns lives in arrays that did not exist
    before, one per row; and that board is the one the loops compute. *)
Lemma Evolute_mem_run (m : Mem) (board : option addr) (b : Board) :
  board_of m board = Some b →
  ∃ m' nb addrs,
    Evolute_mem m board = Some (m', Some nb) ∧
    outers m ⊆ outers m' ∧ inners m ⊆ inners m' ∧
    outers m !! nb = None ∧ outers m' !! nb = Some (Some <$> addrs) ∧
    NoDup addrs ∧ Forall (fun a => inners m !! a = None) addrs ∧
    board_of m' (Some nb) = Some (map (successor_row b) (seq 0 (length b))).
Proof.
  intros Hb. unfold Evolute_mem, alloc_outer.
  rewrite (board_of_len m board b Hb).
  set (nb := fresh (dom (outers m))).
  assert (Hnb : outers m !! nb = None).
  { apply not_elem_of_dom. apply is_fresh. }
  destruct (for_range_inv (mem_outer_inv m b nb) (evolute_mem_row board nb)
              (length b) 0
              (mkMem (<[nb := replicate (length b) None]> (outers m)) (inners m)))
    as (m' & Hrun & Ho & Hi & addrs & Hlen & Hnd & Hfresh & Hhdrs & Hrows).
  - unfold mem_outer_inv. cbn [outers inners].
    split; [by apply insert_subseteq |]. split; [done |].
    exists []. rewrite lookup_insert_eq, Nat.sub_0_r. simpl.
    repeat split; [constructor | constructor | done].
  - intros k t Hk Ht. apply (evolute_mem_row_step m board b nb k t); [done | done | lia | done].
  - rewrite Hrun. exists m', nb, addrs. simpl in Hlen, Hhdrs.
    rewrite Nat.sub_diag, app_nil_r in Hhdrs.
    repeat (split; [done |]).
    unfold board_of. rewrite Hhdrs. apply mapM_Some.
    apply Forall2_same_length_lookup_2.
    + by rewrite length_fmap, length_map, length_seq.
    + intros i hdr row Hhdr Hrowi.
      apply list_lookup_fmap_Some in Hhdr as (a & -> & Ha).
      apply list_lookup_fmap_Some in Hrowi as (i' & -> & Hi').
      apply lookup_seq in Hi' as [-> _]. simpl. by apply Hrows.
Qed.

(** ** Evolute on the heap: the successor *)

(** The value-level [Evolute] computes the same board as the heap
    run. *)
Lemma Evolute_value (b : Board) :
  Evolute b = Some (map (successor_row b) (seq 0 (length b))).
Proof.
  destruct (evolute_run_spec b) as (s & Hrun & _ & Hlen & Hdone).
  unfold Evolute. rewrite Hrun. f_equal.
  apply list_eq. intros i. rewrite list_lookup_fmap.
  destruct (decide (i < length b)%nat) as [Hi | Hi].
  - rewrite lookup_seq_lt by done. simpl.
    destruct (lookup_lt_is_Some_2 b i Hi) as [row Hrow].
    destruct (Hdone i Hi row Hrow) as (row' & -> & Hlen' & Hcells).
    f_equal. unfold successor_row. rewrite Hrow. simpl.
    apply list_eq. intros j. rewrite list_lookup_fmap.
    destruct (decide (j < length row)%nat) as [Hj | Hj].
    + rewrite lookup_seq_lt by done. simpl. by apply Hcells.
    + rewrite lookup_seq_ge by lia. simpl. apply lookup_ge_None. lia.
  - rewrite lookup_seq_ge by lia. simpl. apply lookup_ge_None. lia.
Qed.

Lemma cell_value_life (b : Board) (i j : nat) (row : list bool) (v : bool) :
  well_sized b = true → b !! i = Some row → row !! j = Some v →
  cell_value b i j = life_rule v (live_neighbours b (Z.of_nat i) (Z.of_nat j)).
Proof.
  intros Hws Hrow Hv.
  destruct (well_sized_index b i j row Hws Hrow (lookup_lt_Some _ _ _ Hv))
    as [Hi' Hj'].
  unfold cell_value, next_cell, life_rule.
  rewrite count_neighbours_spec by done.
  rewrite (Get_lookup b i j row v) by done.
  set (n := live_neighbours b (Z.of_nat i) (Z.of_nat j)).
  destruct (Z.eqb_spec (Z.of_nat n) 2) as [H2 | H2],
    (Z.eqb_spec (Z.of_nat n) 3) as [H3 | H3],
    (Nat.eqb_spec n 2) as [N2 | N2], (Nat.eqb_spec n 3) as [N3 | N3];
    try lia; by destruct v.
Qed.

Lemma successor_life_step (b : Board) :
  well_sized b = true →
  map (successor_row b) (seq 0 (length b)) = life_step b.
Proof.
  intros Hws. unfold life_step.
  apply list_eq. intros i. rewrite list_lookup_fmap, list_lookup_imap.
  destruct (b !! i) as [row |] eqn:Hrow.
  - rewrite lookup_seq_lt by (by eapply lookup_lt_Some). simpl. f_equal.
    unfold successor_row. rewrite Hrow. simpl.
    apply list_eq. intros j. rewrite list_lookup_fmap, list_lookup_imap.
    destruct (row !! j) as [v |] eqn:Hv.
    + rewrite lookup_seq_lt by (by eapply lookup_lt_Some). simpl. f_equal.
      by apply (cell_value_life b i j row v).
    + apply lookup_ge_None in Hv. by rewrite lookup_seq_ge.
  - apply lookup_ge_None in Hrow. by rewrite lookup_seq_ge.
Qed.

Lemma life_step_lengths (b : Board) : map length (life_step b) = map length b.
Proof.
  unfold life_step. apply list_eq. intros i.
  rewrite !list_lookup_fmap, list_lookup_imap.
  destruct (b !! i) as [row |]; simpl; [| done]. by rewrite length_imap.
Qed.

(** C8. [Evolute] always returns. The board it returns lives in arrays
    that did not exist before the call, one array of headers and one
    array of cells per row, all distinct; it has as many rows as the
    argument, each as long as the argument's, and holds the successor of
    the argument under the rule of the game. Every array that existed
    before the call holds after it what it held before, so the argument
    is the board it was. *)
Theorem Evolute_fresh_successor (m : Mem) (board : option addr) (b : Board) :
  board_of m board = Some b → well_sized b = true →
  ∃ m' nb addrs,
    Evolute_mem m board = Some (m', Some nb) ∧
    (nb ∉ dom (outers m)) ∧
    outers m' !! nb = Some (Some <$> addrs) ∧
    NoDup addrs ∧ Forall (fun a => a ∉ dom (inners m)) addrs ∧
    board_of m' (Some nb) = Some (life_step b) ∧
    Evolute b = Some (life_step b) ∧
    map length (life_step b) = map length b ∧
    outers m ⊆ outers m' ∧ inners m ⊆ inners m' ∧
    board_of m' board = Some b.
Proof.
  intros Hb Hws.
  destruct (Evolute_mem_run m board b Hb)
    as (m' & nb & addrs & Hrun & Ho & Hi & Hnb & Hhdrs & Hnd & Hfresh & Hnew).
  exists m', nb, addrs.
  split; [done |]. split; [by apply not_elem_of_dom |].
  split; [done |]. split; [done |].
  split.
  { eapply Forall_impl; [exact Hfresh |]. intros a Ha. by apply not_elem_of_dom. }
  split; [by rewrite Hnew, successor_life_step |].
  split; [by rewrite Evolute_value, successor_life_step |].
  split; [apply life_step_lengths |].
  split; [done |]. split; [done |].
  by apply (board_of_weaken m).
Qed.

Lemma Evolute_fresh_successor_witness :
  ∃ m' nb addrs,
    Evolute_mem sample_mem (Some 5%nat) = Some (m', Some nb) ∧
    (nb ∉ dom (outers sample_mem)) ∧
    outers m' !! nb = Some (Some <$> addrs) ∧
    NoDup addrs ∧ Forall (fun a => a ∉ dom (inners sample_mem)) addrs ∧
    board_of m' (Some nb) = Some (life_step [ [true; true]; [true; false] ]) ∧
    Evolute [ [true; true]; [true; false] ]
      = Some (life_step [ [true; true]; [true; false] ]) ∧
    map length (life_step [ [true; true]; [true; false] ])
      = map length [ [true; true]; [true; false] ] ∧
    outers sample_mem ⊆ outers m' ∧ inners sample_mem ⊆ inners m' ∧
    board_of m' (Some 5%nat) = Some [ [true; true]; [true; false] ].
Proof.
  apply (Evolute_fresh_successor sample_mem (Some 5%nat)
           [ [true; true]; [true; false] ]).
  - vm_compute. reflexivity.
  - vm_compute. reflexivity.
Defined.
